(** * plex-tui: track resolution, artist lookup, cache and playback cursor

    A shallow embedding of the core of [plex-tui.py] (class [PlexTUI]):
    [_get_artist_name], [_load_playlist_tracks], [_update_playlist_display],
    [_play_track] and the key-bound actions [action_play_pause],
    [action_next], [action_previous], [action_random], together with the
    start-up ([_connect_to_plex], [_load_playlists]), the search
    ([_search_tracks], [_play_track_by_key]) and [_find_player].

    Python values are modelled as follows.
    - [str] is [string], read as a sequence of code points below 256;
      [int] is [Z]; [None] is the [None] of an [option].
    - An attribute read [obj.name] guarded by [hasattr] is an [Attr]:
      the attribute can be absent, its read can raise, or it has a value.
    - A remote call is an [Outcome]: it raises or it returns.  The calls
      issued against the Plex server are appended to a log, so that
      statements about which calls were made can be phrased.
    - Python list objects live in a heap of lists and are referred to by
      their address, because [tracks_cache] and [current_playlist] may hold
      the same list object and [random.shuffle] mutates it in place.
    - The truth value of a plexapi playlist object is that of the
      length of its [items()]; tracks, sections and artists are plain
      objects and always true.
    - What the machine decides is a field of [Env]: whether ffplay is
      found, whether it starts, whether it takes the pause signal and
      whether it can be terminated.
    The status line ([sub_title]) and the timing measurements do not
    influence control flow and are left out. *)

From Stdlib Require Import ZArith String Ascii List Permutation DecimalString.
From Stdlib Require DecimalPos DecimalZ.
From stdpp Require Import base tactics option list gmap strings.

Local Open Scope string_scope.
Local Open Scope list_scope.
Local Open Scope Z_scope.

(** ** Python strings *)

Module Py.

(** [str.isspace] on a single code point below 256. *)
Definition isspace (c : ascii) : bool :=
  let n := nat_of_ascii c in
  ((9 <=? n)%nat && (n <=? 13)%nat) || ((28 <=? n)%nat && (n <=? 32)%nat)
  || (n =? 133)%nat || (n =? 160)%nat.

Fixpoint lstrip (s : string) : string :=
  match s with
  | EmptyString => EmptyString
  | String c s' => if isspace c then lstrip s' else s
  end.

Definition rstrip (s : string) : string :=
  String.rev (lstrip (String.rev s)).

(** [s.strip()] *)
Definition strip (s : string) : string := rstrip (lstrip s).

(** Truth value of a [str]: non-empty. *)
Definition truthy (s : string) : bool :=
  match s with EmptyString => false | String _ _ => true end.

(** Truth value of a variable holding [None] or a [str]. *)
Definition truthy_opt (o : option string) : bool :=
  match o with None => false | Some s => truthy s end.

(** [sub in s] *)
Fixpoint contains (sub s : string) : bool :=
  String.prefix sub s
  || match s with
     | EmptyString => false
     | String _ s' => contains sub s'
     end.

(** [a or b] on a variable holding [None] or a [str]. *)
Definition or_else (o : option string) (default : string) : string :=
  match o with
  | Some s => if truthy s then s else default
  | None => default
  end.

End Py.

(** ** Attribute reads and remote calls *)

Inductive Attr (A : Type) : Type :=
| Absent                 (* hasattr(obj, name) is False *)
| Raises                 (* reading the attribute raises *)
| Value (v : option A).  (* the attribute holds v; None is Python's None *)
Arguments Absent {A}.
Arguments Raises {A}.
Arguments Value {A} v.

Inductive Exn : Type := AttributeError | OtherError.

Inductive Outcome (A : Type) : Type :=
| Raise (e : Exn)
| Return (a : A).
Arguments Raise {A} e.
Arguments Return {A} a.

(** ** Raw XML documents ([obj._data])

    Only the children of the element matter to the code: [bool(element)]
    is [len(element) != 0] and [element.find(name)] is the first child
    with that tag. *)

Record Element := { tag : string; text : option string }.

Definition find (name : string) (children : list Element) : option Element :=
  List.find (fun e => String.eqb (tag e) name) children.

(** [elem is not None and elem.text] followed by [elem.text]. *)
Definition elem_text (e : option Element) : option string :=
  match e with
  | Some {| text := Some t |} => if Py.truthy t then Some t else None
  | _ => None
  end.

(** ** Tracks *)

(** What [track.artist()] returns: an object with a [title], or one
    without, for which [str(artist_obj)] is used. *)
Inductive ArtistObj : Type :=
| WithTitle (title : option string)
| Plain (str : string).

(** The structured fields are read inside [try] blocks and may raise.
    [_data] and [ratingKey] are tested by [hasattr] outside of any [try];
    they are plain attributes, present or not. *)
Record Track := {
  track_ratingKey : option Z;              (* None: no such attribute *)
  track_title : option string;             (* None: no such attribute *)
  grandparentTitle : Attr string;
  originalTitle : Attr string;
  parentTitle : Attr string;
  track_data : option (list Element);      (* _data; None: absent or None *)
  track_artist : Outcome (option ArtistObj); (* artist(); None: falsy result *)
  track_stream_url : Outcome (option string) (* the URL lookup of _play_track *)
}.

(** Calls sent to the server. *)
Inductive Call : Type :=
| CallFetchItem (ratingKey : Z)
| CallArtist (ratingKey : option Z)
| CallRecentlyAdded (maxresults : Z)
| CallSearchSorted (maxresults : Z)
| CallSearch (maxresults : Z)
| CallAll
| CallItems (ratingKey : option Z).

Record PlexServer := {
  fetchItem : Z -> Outcome Track   (* fetchItem(key, includeChildren=True) *)
}.

(** ** [_get_artist_name] *)

Section ArtistResolver.

Variable plex : option PlexServer.

(** [hasattr(obj, name) and obj.name] then [str(obj.name).strip()],
    inside a [try] whose handler is [pass]. *)
Definition structured (a : Attr string) (artist : option string) : option string :=
  match a with
  | Value (Some s) => if Py.truthy s then Some (Py.strip s) else artist
  | _ => artist
  end.

(** Method 1 *)
Definition method1 (track : Track) (artist : option string) : option string :=
  if negb (Py.truthy_opt artist) then structured (grandparentTitle track) artist
  else artist.

(** The [for elem_name in [...]] loop of method 2, with its [break]. *)
Fixpoint xml_lookup (names : list string) (data : list Element)
         (artist : option string) : option string :=
  match names with
  | [] => artist
  | elem_name :: rest =>
      match elem_text (find elem_name data) with
      | Some t => Some (Py.strip t)
      | None => xml_lookup rest data artist
      end
  end.

Definition xml_names : list string :=
  ["grandparentTitle"; "originalTitle"; "parentTitle"].

(** Method 2 *)
Definition method2 (track : Track) (artist : option string) : option string :=
  match track_data track with
  | Some ((_ :: _) as data) =>
      if negb (Py.truthy_opt artist) then xml_lookup xml_names data artist
      else artist
  | _ => artist
  end.

(** Method 3 *)
Definition method3 (track : Track) (artist : option string) : option string :=
  if negb (Py.truthy_opt artist) then structured (originalTitle track) artist
  else artist.

(** Method 4 *)
Definition method4 (track : Track) (artist : option string) : option string :=
  if negb (Py.truthy_opt artist) then structured (parentTitle track) artist
  else artist.

(** The body of method 5 once [fetchItem] has returned [reloaded]. *)
Definition from_reloaded (reloaded : Track) (artist : option string)
  : option string :=
  let from_data :=
    match track_data reloaded with
    | Some ((_ :: _) as data) =>
        match elem_text (find "grandparentTitle" data) with
        | Some t => Some (Py.strip t)
        | None => artist
        end
    | _ => artist
    end in
  match grandparentTitle reloaded with
  | Raises => artist
  | Value (Some s) => if Py.truthy s then Some (Py.strip s) else from_data
  | _ => from_data
  end.

(** Method 5 *)
Definition method5 (track : Track) (artist : option string)
  : option string * list Call :=
  if negb (Py.truthy_opt artist) then
    match track_ratingKey track with
    | Some key =>
        match plex with
        | None => (artist, [])     (* self.plex is None: AttributeError *)
        | Some server =>
            match fetchItem server key with
            | Raise _ => (artist, [CallFetchItem key])
            | Return reloaded => (from_reloaded reloaded artist, [CallFetchItem key])
            end
        end
    | None => (artist, [])
    end
  else (artist, []).

(** Method 6 *)
Definition method6 (track : Track) (artist : option string)
  : option string * list Call :=
  if negb (Py.truthy_opt artist) then
    (match track_artist track with
     | Raise _ => artist
     | Return None => artist
     | Return (Some artist_obj) =>
         let artist :=
           match artist_obj with
           | WithTitle title => title
           | Plain str => Some str
           end in
         if Py.truthy_opt artist then Py.strip <$> artist else None
     end, [CallArtist (track_ratingKey track)])
  else (artist, []).

(** The value of [artist] when the [return] is reached, with the calls
    made on the way. *)
Definition artist_tiers (track : Track) : option string * list Call :=
  let artist := None in
  let artist := method1 track artist in
  let artist := method2 track artist in
  let artist := method3 track artist in
  let artist := method4 track artist in
  let '(artist, calls5) := method5 track artist in
  let '(artist, calls6) := method6 track artist in
  (artist, calls5 ++ calls6).

Definition _get_artist_name (track : Track) : string * list Call :=
  let '(artist, calls) := artist_tiers track in
  (Py.or_else artist "Unknown", calls).

End ArtistResolver.

(** ** Playlists and the music library *)

Module PyInt.

Definition digit (c : ascii) : option Z :=
  let n := nat_of_ascii c in
  if (48 <=? n)%nat && (n <=? 57)%nat then Some (Z.of_nat n - 48) else None.

(** Decimal digits, a single underscore being allowed between two
    digits. *)
Fixpoint digits (s : string) (acc : Z) (after_digit : bool) : option Z :=
  match s with
  | EmptyString => if after_digit then Some acc else None
  | String c s' =>
      match digit c with
      | Some d => digits s' (10 * acc + d) true
      | None =>
          if after_digit && Ascii.eqb c "_"%char then digits s' acc false
          else None
      end
  end.

(** The characters that [int()] skips around the number: the ASCII
    whitespace, and the two spaces above 127, which the conversion
    turns into a blank first.  Unlike [str.strip], it does not skip
    U+001C to U+001F. *)
Definition int_space (c : ascii) : bool :=
  let n := nat_of_ascii c in
  ((9 <=? n)%nat && (n <=? 13)%nat) || (n =? 32)%nat
  || (n =? 133)%nat || (n =? 160)%nat.

Fixpoint int_lstrip (s : string) : string :=
  match s with
  | EmptyString => EmptyString
  | String c s' => if int_space c then int_lstrip s' else s
  end.

Definition int_strip (s : string) : string :=
  String.rev (int_lstrip (String.rev (int_lstrip s))).

Fixpoint count_digits (s : string) : nat :=
  match s with
  | EmptyString => 0%nat
  | String c s' =>
      match digit c with
      | Some _ => S (count_digits s')
      | None => count_digits s'
      end
  end.

(** [sys.int_info.default_max_str_digits] *)
Definition MAX_STR_DIGITS : nat := 4300.

(** The number after its sign; more than [MAX_STR_DIGITS] digits are
    refused. *)
Definition unsigned (s : string) : option Z :=
  if (MAX_STR_DIGITS <? count_digits s)%nat then None
  else digits s 0 false.

(** [int(s)] for a [str]; [None] stands for [ValueError]. *)
Definition int (s : string) : option Z :=
  match int_strip s with
  | String "+" s' => unsigned s'
  | String "-" s' => Z.opp <$> unsigned s'
  | s' => unsigned s'
  end.

(** [str(n)] for an [int]. *)
Definition str (n : Z) : string :=
  DecimalString.NilZero.string_of_int (Z.to_int n).

End PyInt.

Record Playlist := {
  playlist_ratingKey : option Z;          (* None: no such attribute *)
  playlist_title : option string;         (* None: absent or None *)
  leafCount : Attr Z;
  childCount : Attr Z;
  playlist_data : option (list Element);  (* _data; None: absent or None *)
  items : Outcome (list Track)            (* playlist.items() *)
}.

(** The calls made on [self.music_library].  As with [playlist.items()],
    a call either raises or returns a materialised list (plexapi builds
    it before returning), so iterating over a result cannot fail. *)
Record Library := {
  (* recentlyAdded(libtype='track', maxresults=n) *)
  recentlyAdded : Z -> Outcome (list Track);
  (* search(libtype='track', sort='addedAt:desc', maxresults=n) *)
  search_sorted : Z -> Outcome (list Track);
  (* search(libtype='track', maxresults=n) *)
  search : Z -> Outcome (list Track);
  (* all(libtype='track') *)
  library_all : Outcome (list Track)
}.

Definition LARGE_PLAYLIST_THRESHOLD : Z := 1000.
Definition LARGE_PLAYLIST_LIMIT : Z := 50.
Definition REGULAR_PLAYLIST_LIMIT : Z := 100.
Definition MAX_API_RESULTS : Z := 1000.

(** Lines 260-273: the declared count, when it can be read. *)
Definition playlist_count (playlist : Playlist) : option Z :=
  match leafCount playlist with
  | Value v => v
  | Raises => None
  | Absent =>
      match childCount playlist with
      | Value v => v
      | Raises => None
      | Absent =>
          match playlist_data playlist with
          | Some ((_ :: _) as data) =>
              match elem_text (find "leafCount" data) with
              | Some t => PyInt.int t
              | None => None
              end
          | _ => None
          end
      end
  end.

(** [playlist_count and playlist_count > LARGE_PLAYLIST_THRESHOLD] *)
Definition is_large_playlist (count : option Z) : bool :=
  match count with
  | Some n => negb (n =? 0) && (n >? LARGE_PLAYLIST_THRESHOLD)
  | None => false
  end.

(** Lines 277-278. *)
Definition chosen_limit (limit : option Z) (count : option Z) : Z :=
  match limit with
  | Some l => l
  | None =>
      if is_large_playlist count then LARGE_PLAYLIST_LIMIT
      else REGULAR_PLAYLIST_LIMIT
  end.

(** Line 281. *)
Definition api_limit (limit : Z) : Z := Z.min limit MAX_API_RESULTS.

(** The three branches of the [if]/[elif]/[else] at lines 301-380. *)
Inductive Strategy : Type :=
| RECENT_FEED
| LARGE_LIBRARY_SCAN
| DIRECT_ENUMERATION.

(** [playlist_title and "Recently Added" in playlist_title] *)
Definition is_recently_added (title : option string) : bool :=
  match title with
  | Some t => Py.truthy t && Py.contains "Recently Added" t
  | None => false
  end.

Definition select_strategy (music_library : option Library)
           (title : option string) (count : option Z) : Strategy :=
  let use_library_method :=
    is_large_playlist count && bool_decide (is_Some music_library) in
  if is_recently_added title && bool_decide (is_Some music_library)
  then RECENT_FEED
  else if use_library_method then LARGE_LIBRARY_SCAN
  else DIRECT_ENUMERATION.

(** [for i, track in enumerate(items): if i < limit: tracks.append(track)
    else: break] *)
Fixpoint collect (limit : Z) (i : Z) (items : list Track) (tracks : list Track)
  : list Track :=
  match items with
  | [] => tracks
  | track :: rest =>
      if i <? limit then collect limit (i + 1) rest (tracks ++ [track])
      else tracks
  end.

(** [l[:stop]] *)
Definition slice_to {A} (l : list A) (stop : Z) : list A :=
  if 0 <=? stop then take (Z.to_nat stop) l
  else take (length l - Z.to_nat (- stop)) l.

Section Fetch.

Variable playlist : Playlist.
Variable limit : Z.

(** [playlist.items()] followed by the capped loop.  In the fallback
    positions a raising [items()] leaves the handler and reaches the
    [except] of the whole function; in the regular branch it is raised
    again. *)
Definition fetch_items (tracks : list Track) (calls : list Call)
  : Outcome (list Track) * list Call :=
  let calls := calls ++ [CallItems (playlist_ratingKey playlist)] in
  match items playlist with
  | Return its => (Return (collect limit 0 its tracks), calls)
  | Raise e => (Raise e, calls)
  end.

(** Lines 302-327. *)
Definition fetch_recent (lib : Library) : Outcome (list Track) * list Call :=
  let tracks := [] in
  let n := api_limit limit in
  match recentlyAdded lib n with
  | Return all_tracks =>
      (Return (collect limit 0 all_tracks tracks), [CallRecentlyAdded n])
  | Raise AttributeError =>
      match search_sorted lib n with
      | Return all_tracks =>
          (Return (collect limit 0 all_tracks tracks),
           [CallRecentlyAdded n; CallSearchSorted n])
      | Raise _ => fetch_items tracks [CallRecentlyAdded n; CallSearchSorted n]
      end
  | Raise OtherError => fetch_items tracks [CallRecentlyAdded n]
  end.

(** Lines 331-365. *)
Definition fetch_library (lib : Library) : Outcome (list Track) * list Call :=
  let tracks := [] in
  let n := api_limit limit in
  match search lib n with
  | Return all_tracks =>
      let tracks := all_tracks in
      let tracks :=
        if Z.of_nat (length tracks) >? limit then slice_to tracks limit
        else tracks in
      (Return tracks, [CallSearch n])
  | Raise _ =>
      match library_all lib with
      | Return all_tracks =>
          (Return (collect limit 0 all_tracks tracks), [CallSearch n; CallAll])
      | Raise _ => fetch_items tracks [CallSearch n; CallAll]
      end
  end.

(** Lines 293-380. *)
Definition fetch (music_library : option Library) (count : option Z)
  : Outcome (list Track) * list Call :=
  match select_strategy music_library (playlist_title playlist) count,
        music_library with
  | RECENT_FEED, Some lib => fetch_recent lib
  | LARGE_LIBRARY_SCAN, Some lib => fetch_library lib
  | _, _ => fetch_items [] []
  end.

End Fetch.

(** Lines 260-381: count, limit and fetch. *)
Definition fetch_tracks (music_library : option Library) (playlist : Playlist)
           (limit : option Z) : Outcome (list Track) * list Call :=
  let count := playlist_count playlist in
  fetch playlist (chosen_limit limit count) music_library count.

(** ** [random.shuffle] *)

Section Shuffle.

Context {A : Type}.

(** [x[i], x[j] = x[j], x[i]] *)
Definition swap (x : list A) (i j : nat) : list A :=
  match x !! i, x !! j with
  | Some a, Some b => <[i := b]> (<[j := a]> x)
  | _, _ => x
  end.

(** [for i in reversed(range(1, len(x))): j = randbelow(i + 1); swap].
    The generator is an oracle; its answer to [randbelow(n)] is reduced
    below [n], where [_randbelow] always lands. *)
Fixpoint shuffle_from (randbelow : nat -> nat) (i : nat) (x : list A) : list A :=
  match i with
  | O => x
  | S i' => shuffle_from randbelow i' (swap x i (randbelow (i + 1) mod (i + 1))%nat)
  end.

Definition shuffle (randbelow : nat -> nat) (x : list A) : list A :=
  shuffle_from randbelow (length x - 1) x.

End Shuffle.

(** ** Application state *)

(** Address of a Python list object. *)
Definition loc := nat.

Record Env := {
  plex : option PlexServer;
  music_library : option Library;
  player_found : bool;   (* _find_player(PLAYER_CMD) finds ffplay *)
  can_start : bool;      (* subprocess.Popen succeeds *)
  can_signal : bool;     (* not on Windows, and send_signal succeeds *)
  can_terminate : bool   (* current_process.terminate() succeeds *)
}.

Record Player := {
  current_track : option Track;
  is_playing : bool;
  current_process : option string;        (* the running ffplay, by URL *)
  now_playing : option (string * string)  (* artist, title *)
}.

Inductive Content : Type :=
| Welcome
| TrackLines (loaded : nat) (total_count : option Z) (lines : list (string * string))
| LoadError.

Record App := {
  env : Env;
  heap : list (list Track);       (* the list objects, by address *)
  tracks_cache : gmap string loc;
  current_playlist : loc;
  current_index : Z;
  player : Player;
  _highlighted_playlist : option Playlist;
  main_content : Content;
  calls : list Call               (* calls made so far, oldest first *)
}.

(** The list object at an address. *)
Definition deref (h : list (list Track)) (l : loc) : list Track :=
  default [] (h !! l).

(** [self.current_playlist] as a value. *)
Definition playlist_of (app : App) : list Track :=
  deref (heap app) (current_playlist app).

(** [l[i]]; [None] stands for [IndexError]. *)
Definition index {A} (l : list A) (i : Z) : option A :=
  if 0 <=? i then l !! Z.to_nat i
  else if - i <=? Z.of_nat (length l) then l !! (length l - Z.to_nat (- i))%nat
  else None.

(** [PlexTUI.__init__], with [current_playlist] a fresh empty list. *)
Definition init (e : Env) : App :=
  {| env := e; heap := [[]]; tracks_cache := ∅; current_playlist := 0%nat;
     current_index := 0;
     player := {| current_track := None; is_playing := false;
                  current_process := None; now_playing := None |};
     _highlighted_playlist := None; main_content := Welcome; calls := [] |}.

(** ** [_update_playlist_display] *)

(** [getattr(track, 'title', 'Unknown')] *)
Definition title_of (track : Track) : string :=
  default "Unknown" (track_title track).

(** The loop over [tracks[:20]]. *)
Fixpoint display_lines (plex : option PlexServer) (tracks : list Track)
  : list (string * string) * list Call :=
  match tracks with
  | [] => ([], [])
  | track :: rest =>
      let title := title_of track in
      let '(artist, made) := _get_artist_name plex track in
      let '(track_lines, made') := display_lines plex rest in
      ((artist, title) :: track_lines, made ++ made')
  end.

Definition _update_playlist_display (app : App) (tracks : list Track)
           (total_count : option Z) : App :=
  let '(track_lines, made) := display_lines (plex (env app)) (take 20 tracks) in
  {| env := env app; heap := heap app; tracks_cache := tracks_cache app;
     current_playlist := current_playlist app;
     current_index := current_index app; player := player app;
     _highlighted_playlist := _highlighted_playlist app;
     main_content := TrackLines (length tracks) total_count track_lines;
     calls := calls app ++ made |}.

(** ** [_load_playlist_tracks] *)

(** [str(playlist.ratingKey) if hasattr(playlist, 'ratingKey') else None] *)
Definition playlist_key (playlist : Playlist) : option string :=
  PyInt.str <$> playlist_ratingKey playlist.

(** [playlist_key and playlist_key in self.tracks_cache], then
    [self.tracks_cache[playlist_key]]. *)
Definition cache_get (cache : gmap string loc) (key : option string) : option loc :=
  match key with
  | Some k => if Py.truthy k then cache !! k else None
  | None => None
  end.

(** [if playlist_key: self.tracks_cache[playlist_key] = tracks] *)
Definition cache_put (cache : gmap string loc) (key : option string) (tracks : loc)
  : gmap string loc :=
  match key with
  | Some k => if Py.truthy k then <[k := tracks]> cache else cache
  | None => cache
  end.

Definition _load_playlist_tracks (app : App) (playlist : Playlist)
           (limit : option Z) : App :=
  let key := playlist_key playlist in
  match cache_get (tracks_cache app) key with
  | Some tracks =>
      (* cache hit: the cached list object itself becomes current *)
      let app :=
        {| env := env app; heap := heap app; tracks_cache := tracks_cache app;
           current_playlist := tracks; current_index := 0;
           player := player app;
           _highlighted_playlist := _highlighted_playlist app;
           main_content := main_content app; calls := calls app |} in
      _update_playlist_display app (deref (heap app) tracks) None
  | None =>
      match fetch_tracks (music_library (env app)) playlist limit with
      | (Raise _, made) =>
          (* the handler of the whole function *)
          {| env := env app; heap := heap app;
             tracks_cache := tracks_cache app;
             current_playlist := current_playlist app;
             current_index := current_index app; player := player app;
             _highlighted_playlist := _highlighted_playlist app;
             main_content := LoadError; calls := calls app ++ made |}
      | (Return fetched, made) =>
          (* the list built by the fetch is a new object *)
          let tracks := length (heap app) in
          let app :=
            {| env := env app; heap := heap app ++ [fetched];
               tracks_cache := cache_put (tracks_cache app) key tracks;
               current_playlist := tracks; current_index := 0;
               player := player app;
               _highlighted_playlist := _highlighted_playlist app;
               main_content := main_content app;
               calls := calls app ++ made |} in
          _update_playlist_display app fetched (playlist_count playlist)
      end
  end.

(** ** Playback *)

Definition set_player (app : App) (p : Player) : App :=
  {| env := env app; heap := heap app; tracks_cache := tracks_cache app;
     current_playlist := current_playlist app;
     current_index := current_index app; player := p;
     _highlighted_playlist := _highlighted_playlist app;
     main_content := main_content app; calls := calls app |}.

Definition set_index (app : App) (i : Z) : App :=
  {| env := env app; heap := heap app; tracks_cache := tracks_cache app;
     current_playlist := current_playlist app;
     current_index := i; player := player app;
     _highlighted_playlist := _highlighted_playlist app;
     main_content := main_content app; calls := calls app |}.

Definition add_calls (app : App) (made : list Call) : App :=
  {| env := env app; heap := heap app; tracks_cache := tracks_cache app;
     current_playlist := current_playlist app;
     current_index := current_index app; player := player app;
     _highlighted_playlist := _highlighted_playlist app;
     main_content := main_content app; calls := calls app ++ made |}.

Definition set_highlighted (app : App) (p : option Playlist) : App :=
  {| env := env app; heap := heap app; tracks_cache := tracks_cache app;
     current_playlist := current_playlist app;
     current_index := current_index app; player := player app;
     _highlighted_playlist := p;
     main_content := main_content app; calls := calls app |}.

(** [random.shuffle(self.current_playlist)]: the current list object is
    permuted where it lives. *)
Definition shuffle_current (app : App) (randbelow : nat -> nat) : App :=
  {| env := env app;
     heap := <[current_playlist app := shuffle randbelow (playlist_of app)]>
               (heap app);
     tracks_cache := tracks_cache app;
     current_playlist := current_playlist app;
     current_index := current_index app; player := player app;
     _highlighted_playlist := _highlighted_playlist app;
     main_content := main_content app; calls := calls app |}.

Definition _play_track (app : App) (track : Track) : App :=
  match track_stream_url track with
  | Raise _ => app
  | Return None => app
  | Return (Some stream_url) =>
      if Py.truthy stream_url then
        let title := title_of track in
        let '(artist, made) := _get_artist_name (plex (env app)) track in
        let app := add_calls app made in
        let p := player app in
        let app :=
          set_player app
            {| current_track := current_track p; is_playing := is_playing p;
               current_process := current_process p;
               now_playing := Some (artist, title) |} in
        if player_found (env app) then
          (* the old process is terminated inside a [try] of its own;
             when [Popen] raises, nothing more is assigned *)
          if can_start (env app) then
            set_player app
              {| current_track := Some track; is_playing := true;
                 current_process := Some stream_url;
                 now_playing := Some (artist, title) |}
          else app
        else app
      else app
  end.

(** [self._play_track(self.current_playlist[i])] *)
Definition play_at (app : App) (i : Z) : App :=
  match index (playlist_of app) i with
  | Some track => _play_track app track
  | None => app
  end.

(** Truth value of [self.current_playlist]. *)
Definition has_tracks (app : App) : bool :=
  match playlist_of app with [] => false | _ :: _ => true end.

Definition action_next (app : App) : App :=
  if has_tracks app
     && (current_index app <? Z.of_nat (length (playlist_of app)) - 1) then
    let app := set_index app (current_index app + 1) in
    play_at app (current_index app)
  else app.

Definition action_previous (app : App) : App :=
  if has_tracks app && (current_index app >? 0) then
    let app := set_index app (current_index app - 1) in
    play_at app (current_index app)
  else app.

Definition action_random (app : App) (randbelow : nat -> nat) : App :=
  if has_tracks app then
    let app := shuffle_current app randbelow in
    let app := set_index app 0 in
    play_at app 0
  else app.

(** Truth value of a playlist object.  plexapi gives a playlist the
    length of [self.items()]: the test asks for the items, it is false
    of an empty playlist, and it raises when [items()] does. *)
Definition playlist_bool (playlist : Playlist) : Outcome bool :=
  match items playlist with
  | Raise e => Raise e
  | Return [] => Return false
  | Return (_ :: _) => Return true
  end.

(** The test [if self._highlighted_playlist:] on a playlist object: the
    call it makes is logged. *)
Definition test_highlighted (app : App) (playlist : Playlist) : App :=
  add_calls app [CallItems (playlist_ratingKey playlist)].

(** A handler has no [try] around the test of the highlighted playlist:
    when the test raises, the exception leaves the handler and the state
    is the one reached by then. *)
Definition action_play_pause (app : App) (randbelow : nat -> nat) : App :=
  match current_process (player app) with
  | Some _ =>
      if can_signal (env app) then
        let p := player app in
        set_player app
          {| current_track := current_track p;
             is_playing := negb (is_playing p);
             current_process := current_process p;
             now_playing := now_playing p |}
      else app
  | None =>
      if has_tracks app then
        let app := set_index app 0 in
        play_at app 0
      else
        match _highlighted_playlist app with
        | Some playlist =>
            let app := test_highlighted app playlist in
            match playlist_bool playlist with
            | Return true =>
                let app := _load_playlist_tracks app playlist None in
                if has_tracks app then
                  let app :=
                    if Z.of_nat (length (playlist_of app)) >? 50
                    then shuffle_current app randbelow
                    else app in
                  let app := set_index app 0 in
                  play_at app 0
                else app
            | Return false => app
            | Raise _ => app
            end
        | None => app
        end
  end.

(** [action_load_playlist].  When the highlighted playlist tests false,
    the [elif] looks the highlighted key up in [playlist_cache]; key and
    playlist are assigned together by the list handlers from a cache
    that does not change after start-up, so the lookup gives the
    highlighted playlist back, and it is loaded all the same. *)
Definition action_load_playlist (app : App) : App :=
  match _highlighted_playlist app with
  | Some playlist =>
      let app := test_highlighted app playlist in
      match playlist_bool playlist with
      | Return _ => _load_playlist_tracks app playlist None
      | Raise _ => app
      end
  | None => app
  end.

(** [on_list_view_highlighted] for the item of [playlist]. *)
Definition on_list_view_highlighted (app : App) (playlist : Playlist) : App :=
  set_highlighted app (Some playlist).

(** [on_list_view_selected] for the item of [playlist]: the running
    player is stopped and the playlist is loaded.  When [terminate()]
    raises, the two assignments that follow it are skipped. *)
Definition on_list_view_selected (app : App) (playlist : Playlist) : App :=
  let app := set_highlighted app (Some playlist) in
  let app :=
    match current_process (player app) with
    | Some _ =>
        if can_terminate (env app) then
          let p := player app in
          set_player app
            {| current_track := current_track p; is_playing := false;
               current_process := None; now_playing := now_playing p |}
        else app
    | None => app
    end in
  _load_playlist_tracks app playlist None.

(** ** Sessions

    The handlers that assign [current_playlist] or [current_index], or
    shuffle the list.  Searching, playing a track picked from a list and
    quitting touch neither. *)

Inductive Event : Type :=
| Highlighted (playlist : Playlist)
| Selected (playlist : Playlist)
| LoadPlaylist
| PlayPause (randbelow : nat -> nat)
| Next
| Previous
| Random (randbelow : nat -> nat).

Definition step (app : App) (ev : Event) : App :=
  match ev with
  | Highlighted playlist => on_list_view_highlighted app playlist
  | Selected playlist => on_list_view_selected app playlist
  | LoadPlaylist => action_load_playlist app
  | PlayPause randbelow => action_play_pause app randbelow
  | Next => action_next app
  | Previous => action_previous app
  | Random randbelow => action_random app randbelow
  end.

Definition run (app : App) (evs : list Event) : App := fold_left step evs app.

(** ** Start-up: [_connect_to_plex] and [_load_playlists] *)

(** A library section as [_connect_to_plex] reads it. *)
Record LibrarySection := {
  section_type : string;      (* section.type *)
  section_library : Library
}.

(** What [PlexServer(PLEX_BASE_URL, PLEX_TOKEN)] gives: the server, and
    the answer of [plex.library.sections()]. *)
Record Connection := {
  conn_server : PlexServer;
  conn_sections : Outcome (list LibrarySection)
}.

(** The loop of [_connect_to_plex], with its [break]. *)
Fixpoint first_artist_section (sections : list LibrarySection)
         (music_library : option Library) : option Library :=
  match sections with
  | [] => music_library
  | section :: rest =>
      if String.eqb (section_type section) "artist"
      then Some (section_library section)
      else first_artist_section rest music_library
  end.

(** [_connect_to_plex] on the fields [plex] and [music_library]. *)
Definition _connect_to_plex (plex : option PlexServer)
           (music_library : option Library) (answer : Outcome Connection)
  : option PlexServer * option Library :=
  match answer with
  | Raise _ => (plex, music_library)
  | Return conn =>
      match conn_sections conn with
      | Raise _ => (Some (conn_server conn), music_library)
      | Return sections =>
          (Some (conn_server conn), first_artist_section sections music_library)
      end
  end.

(** A Python [dict] with [str] keys, in insertion order. *)
Definition dict (V : Type) : Type := list (string * V).

(** [d[k]], [None] for a missing key. *)
Fixpoint dict_get {V} (d : dict V) (k : string) : option V :=
  match d with
  | [] => None
  | (k', v) :: d' => if String.eqb k' k then Some v else dict_get d' k
  end.

(** [d[k] = v]: an existing key keeps its place. *)
Fixpoint dict_set {V} (d : dict V) (k : string) (v : V) : dict V :=
  match d with
  | [] => [(k, v)]
  | (k', v') :: d' =>
      if String.eqb k' k then (k, v) :: d'
      else (k', v') :: dict_set d' k v
  end.

(** The fields [playlists] and [playlist_cache]; a cache entry holds the
    title and the playlist object. *)
Record Sidebar := {
  playlists : list Playlist;
  playlist_cache : dict (option string * Playlist)
}.

(** A playlist as the loop of [_load_playlists] meets it: the object,
    and what its two reads under [hasattr] give.  plexapi may ask the
    server for an attribute when it is read, so that a read may raise. *)
Record PlaylistEntry := {
  entry_playlist : Playlist;
  entry_title : Attr string;      (* playlist.title *)
  entry_ratingKey : Attr Z        (* playlist.ratingKey *)
}.

(** The body of the loop of [_load_playlists].  A read that raises skips
    the playlist; a playlist without [title] is cached as "Playlist";
    the playlist is kept when its [ratingKey] exists and is truthy. *)
Definition add_playlist (sb : Sidebar) (entry : PlaylistEntry) : Sidebar :=
  let playlist := entry_playlist entry in
  match entry_title entry with
  | Raises => sb
  | title_read =>
      let title :=
        match title_read with
        | Value v => v
        | _ => Some "Playlist"
        end in
      match entry_ratingKey entry with
      | Raises => sb
      | Absent => sb
      | Value None => sb
      | Value (Some rating_key) =>
          if negb (rating_key =? 0) then
            {| playlists := playlists sb ++ [playlist];
               playlist_cache :=
                 dict_set (playlist_cache sb) (PyInt.str rating_key)
                          (title, playlist) |}
          else sb
      end
  end.

(** [_load_playlists]; [answer] is what [self.plex.playlists()] gives
    (it raises when there is no connection). *)
Definition _load_playlists (sb : Sidebar)
           (answer : Outcome (list PlaylistEntry)) : Sidebar :=
  match answer with
  | Raise _ => sb
  | Return playlists_iter =>
      fold_left add_playlist playlists_iter
                {| playlists := []; playlist_cache := [] |}
  end.

(** ** [_play_track_by_key] *)

(** [next((t for t in all_tracks if str(t.ratingKey) == track_key), None)];
    reading [ratingKey] from a track that has none raises. *)
Fixpoint find_track (all_tracks : list Track) (track_key : string)
  : Outcome (option Track) :=
  match all_tracks with
  | [] => Return None
  | t :: rest =>
      match track_ratingKey t with
      | None => Raise AttributeError
      | Some key =>
          if String.eqb (PyInt.str key) track_key then Return (Some t)
          else find_track rest track_key
      end
  end.

(** [_play_track_by_key]; [search_results] is the field of that name. *)
Definition _play_track_by_key (app : App) (search_results : list Track)
           (track_key : string) : Outcome App :=
  let all_tracks := playlist_of app ++ search_results in
  match find_track all_tracks track_key with
  | Raise e => Raise e
  | Return None => Return app
  | Return (Some track) => Return (_play_track app track)
  end.

(** ** [_find_player] *)

(** The machine the program runs on. *)
Record Host := {
  which : string -> option string;   (* shutil.which *)
  system : string;                   (* platform.system() *)
  isfile : string -> bool;           (* os.path.isfile *)
  access_x : string -> bool          (* os.access(path, os.X_OK) *)
}.

(** [os.path.join(a, b)] of [posixpath]. *)
Definition path_join (a b : string) : string :=
  if String.prefix "/" b then b
  else
    match String.rev a with
    | EmptyString => b
    | String c _ =>
        if Ascii.eqb c "/"%char then String.append a b
        else String.append a (String "/"%char b)
    end.

(** The loop over [homebrew_paths]. *)
Fixpoint first_executable (host : Host) (paths : list string)
         (player_cmd : string) : option string :=
  match paths with
  | [] => None
  | brew_path :: rest =>
      let test_path := path_join brew_path player_cmd in
      if isfile host test_path && access_x host test_path then Some test_path
      else first_executable host rest player_cmd
  end.

Definition homebrew_paths : list string :=
  ["/opt/homebrew/bin"; "/usr/local/bin"].

Definition _find_player (host : Host) (player_cmd : string) : option string :=
  match which host player_cmd with
  | Some ((String _ _) as full_path) => Some full_path
  | _ =>
      if String.eqb (system host) "Darwin"
      then first_executable host homebrew_paths player_cmd
      else None
  end.

(** ** [_search_tracks] *)

(** An entry of a [ListView]. *)
Record ListItem := {
  item_label : string;
  item_id : string
}.

(** The loop that fills the result list.  The artist is resolved before
    [track.ratingKey] is read for the id; a track without [ratingKey]
    raises there.  [search_list.clear()] is not awaited, so the entries
    of the previous search are still mounted while the loop runs:
    [mounted] holds their ids and the ids appended so far, and appending
    an entry whose id is mounted raises.  Either exception ends the
    loop. *)
Fixpoint search_items (plex : option PlexServer) (mounted : list string)
         (results : list Track) : list ListItem * list Call :=
  match results with
  | [] => ([], [])
  | track :: rest =>
      let title := title_of track in
      let '(artist, made) := _get_artist_name plex track in
      match track_ratingKey track with
      | None => ([], made)
      | Some key =>
          let id := String.append "track-" (PyInt.str key) in
          if existsb (String.eqb id) mounted then ([], made)
          else
            let '(listed, made') := search_items plex (id :: mounted) rest in
            ({| item_label :=
                  String.append artist (String.append " - " title);
                item_id := id |} :: listed,
             made ++ made')
      end
  end.

(** The field [search_results] and the entries of the result list. *)
Record SearchPane := {
  search_results : list Track;
  search_list : list ListItem
}.

(** [results]: the title search goes to the music library when there is
    one, to the server's library otherwise; without a server the
    attribute read on [None] raises. *)
Definition search_answer (e : Env)
           (library_search server_search : Outcome (list Track))
  : Outcome (list Track) :=
  match music_library e with
  | Some _ => library_search
  | None =>
      match plex e with
      | Some _ => server_search
      | None => Raise AttributeError
      end
  end.

(** [_search_tracks]; [library_search] and [server_search] are what the
    two title searches answer for the query.  The entries of the
    previous search are removed once the handler has returned, which
    leaves the entries appended by the loop. *)
Definition _search_tracks (app : App) (pane : SearchPane)
           (library_search server_search : Outcome (list Track))
  : App * SearchPane :=
  match search_answer (env app) library_search server_search with
  | Raise _ => (app, pane)
  | Return results =>
      let '(listed, made) :=
        search_items (plex (env app)) (map item_id (search_list pane))
                     results in
      (add_calls app made,
       {| search_results := results; search_list := listed |})
  end.

(** * Vocabulary of the statements *)

(** ** Strategy and cap *)

Definition strategy_of (lib : option Library) (p : Playlist) : Strategy :=
  select_strategy lib (playlist_title p) (playlist_count p).


(** The declared count is known and exceeds 1000. *)
Definition count_exceeds_threshold (p : Playlist) : Prop :=
  exists n, playlist_count p = Some n /\ n > 1000.

(** The [maxresults] argument of a call, when it has one. *)
Definition maxresults_of (c : Call) : option Z :=
  match c with
  | CallRecentlyAdded n | CallSearchSorted n | CallSearch n => Some n
  | _ => None
  end.

(** Calls of the fetch, as opposed to those of artist resolution. *)
Definition is_fetch_call (c : Call) : bool :=
  match c with
  | CallFetchItem _ | CallArtist _ => false
  | _ => true
  end.

(** Direct enumeration of the playlist with cap [limit]: the branch taken
    when neither the title rule nor the size rule applies. *)
Definition direct_enumeration (p : Playlist) (limit : Z) : Outcome (list Track) :=
  fst (fetch p limit None None).

(** ** Tiers of the artist resolver *)

(** A tier leaves a non-empty [artist] alone; on an empty one it either
    overrides it with the non-empty value it found, or leaves it empty. *)
Definition tier_eq (m : option string -> option string) : Prop :=
  forall a, if Py.truthy_opt a then m a = a
            else if Py.truthy_opt (m None) then m a = m None
                 else Py.truthy_opt (m a) = false.

(** The tiers in order, as functions of the [artist] found so far. *)
Definition tiers (plex : option PlexServer) (track : Track)
  : list (option string -> option string) :=
  [ method1 track; method2 track; method3 track; method4 track;
    (fun a => fst (method5 plex track a)); (fun a => fst (method6 track a)) ].

(** What each tier yields when asked on its own. *)
Definition tier_yields (plex : option PlexServer) (track : Track)
  : list (option string) :=
  map (fun m => m None) (tiers plex track).

(** Every tier raises or yields nothing. *)
Definition exhausted (plex : option PlexServer) (track : Track) : Prop :=
  Forall (fun y => Py.truthy_opt y = false) (tier_yields plex track).

(** The first non-empty yield, in tier order. *)
Fixpoint first_yield (ys : list (option string)) : option string :=
  match ys with
  | [] => None
  | y :: ys => if Py.truthy_opt y then y else first_yield ys
  end.

Definition chain (ms : list (option string -> option string))
           (a : option string) : option string :=
  fold_left (fun a m => m a) ms a.

(** The [artist] found by the four tiers that read the track itself. *)
Definition cheap_tiers (track : Track) : option string :=
  method4 track (method3 track (method2 track (method1 track None))).

(** The text found under a field name: the first child with that tag,
    if its text is non-empty. *)
Definition candidate (data : list Element) (name : string) : option string :=
  elem_text (find name data).

(** The first candidate, in the order grandparentTitle, originalTitle,
    parentTitle. *)
Definition first_candidate (data : list Element) : option string :=
  match candidate data "grandparentTitle" with
  | Some t => Some t
  | None =>
      match candidate data "originalTitle" with
      | Some t => Some t
      | None => candidate data "parentTitle"
      end
  end.

(** ** The cursor *)

(** The cursor is an index into the current list, and 0 when the list is
    empty. *)
Definition cursor_ok (app : App) : Prop :=
  let n := Z.of_nat (length (playlist_of app)) in
  0 <= current_index app < n \/ (n = 0 /\ current_index app = 0).

(** An operation either puts the cursor back to 0, or leaves list and
    cursor as they were. *)
Definition reset_or_kept (app s : App) : Prop :=
  current_index s = 0
  \/ (playlist_of s = playlist_of app /\ current_index s = current_index app).

(** ** Sample objects *)

Module Sample.

(** A track without any artist information of its own. *)
Definition bare_track (key : Z) : Track :=
  {| track_ratingKey := Some key; track_title := Some "Song";
     grandparentTitle := Value None; originalTitle := Value None;
     parentTitle := Value None; track_data := None;
     track_artist := Raise OtherError;
     track_stream_url := Return (Some "http://plex/song") |}.

Definition titled_track (key : Z) (artist : string) : Track :=
  {| track_ratingKey := Some key; track_title := Some "Song";
     grandparentTitle := Value (Some artist); originalTitle := Value None;
     parentTitle := Value None; track_data := None;
     track_artist := Raise OtherError;
     track_stream_url := Return (Some "http://plex/song") |}.

(** A track described by its raw document only. *)
Definition document_track (data : list Element) : Track :=
  {| track_ratingKey := Some 7; track_title := Some "Song";
     grandparentTitle := Absent; originalTitle := Absent;
     parentTitle := Absent; track_data := Some data;
     track_artist := Raise OtherError;
     track_stream_url := Return None |}.

Definition band_x_document : list Element :=
  [ {| tag := "originalTitle"; text := Some " Band X " |} ].

(** The first candidate of this document is blank. *)
Definition blank_first_document : list Element :=
  [ {| tag := "grandparentTitle"; text := Some " " |};
    {| tag := "originalTitle"; text := Some "Band X" |} ].

Definition playlist_with (key : Z) (title : string) (count : option Z)
           (its : Outcome (list Track)) : Playlist :=
  {| playlist_ratingKey := Some key; playlist_title := Some title;
     leafCount := Value count; childCount := Absent;
     playlist_data := None; items := its |}.

(** A playlist whose count is only found in its raw document. *)
Definition counted_in_document : Playlist :=
  {| playlist_ratingKey := Some 3; playlist_title := Some "All Music";
     leafCount := Absent; childCount := Absent;
     playlist_data := Some [ {| tag := "leafCount"; text := Some " 5_000 " |} ];
     items := Return [] |}.

Definition recently_added : Playlist :=
  playlist_with 2 "Recently Added" None (Return [titled_track 2 "B"]).

Definition big_mix : Playlist :=
  playlist_with 1 "Big Mix" (Some 5000) (Return [titled_track 2 "B"]).

Definition small_playlist : Playlist :=
  playlist_with 1 "Mix" None (Return [titled_track 2 "B"]).

Definition two_tracks : Playlist :=
  playlist_with 5 "Mix" None (Return [titled_track 1 "A"; titled_track 2 "B"]).

(** Its only track needs the reload tier. *)
Definition lazy_playlist : Playlist :=
  playlist_with 9 "Mix" None (Return [bare_track 7]).

(** A library whose recent feed fails with an error other than
    [AttributeError]. *)
Definition failing_library : Library :=
  {| recentlyAdded := fun _ => Raise OtherError;
     search_sorted := fun _ => Return [titled_track 1 "A"];
     search := fun _ => Raise OtherError;
     library_all := Raise OtherError |}.

(** A library without [recentlyAdded], whose search answers with 200
    tracks whatever limit it is given. *)
Definition old_library : Library :=
  {| recentlyAdded := fun _ => Raise AttributeError;
     search_sorted := fun _ => Return [titled_track 1 "A"];
     search := fun n => Return (replicate 200 (titled_track 3 "C"));
     library_all := Raise OtherError |}.

Definition unreachable_server : PlexServer :=
  {| fetchItem := fun _ => Raise OtherError |}.

(** A server that answers every reload with a fully described track. *)
Definition reloading_server : PlexServer :=
  {| fetchItem := fun key => Return (titled_track key "Band X") |}.

Definition no_server : Env :=
  {| plex := None; music_library := None; player_found := true;
     can_start := true; can_signal := true; can_terminate := true |}.

Definition reloading_env : Env :=
  {| plex := Some reloading_server; music_library := None;
     player_found := true; can_start := true; can_signal := true;
     can_terminate := true |}.

Definition band_x_track : Track := document_track band_x_document.

Definition blank_first_track : Track := document_track blank_first_document.

(** Sessions in which one playlist has been loaded once. *)
Definition small_loaded : App :=
  _load_playlist_tracks (init no_server) small_playlist None.

Definition two_loaded : App :=
  _load_playlist_tracks (init no_server) two_tracks None.

Definition lazy_loaded : App :=
  _load_playlist_tracks (init reloading_env) lazy_playlist None.

End Sample.

(** ** Fetch results *)

(** [source] is what one of the remote calls of a fetch answered. *)
Definition is_answer (lib : option Library) (p : Playlist) (n : Z)
           (source : list Track) : Prop :=
  items p = Return source
  \/ exists l, lib = Some l
               /\ (recentlyAdded l n = Return source
                   \/ search_sorted l n = Return source
                   \/ search l n = Return source
                   \/ library_all l = Return source).

(** ** Well-formed states *)

(** Every cached address and the current playlist are list objects of
    the heap, and no two ids share a list object. *)
Definition cache_wf (app : App) : Prop :=
  (current_playlist app < length (heap app))%nat
  /\ (forall key l, tracks_cache app !! key = Some l ->
                    (l < length (heap app))%nat)
  /\ (forall k1 k2 l, tracks_cache app !! k1 = Some l ->
                      tracks_cache app !! k2 = Some l -> k1 = k2).

(** A track is marked as playing only while a player process is
    registered, and a process is registered only for a track. *)
Definition player_ok (app : App) : Prop :=
  (is_playing (player app) = true -> is_Some (current_process (player app)))
  /\ (is_Some (current_process (player app)) ->
      is_Some (current_track (player app))).

(** No list object holds more than [n] tracks. *)
Definition heap_within (n : nat) (app : App) : Prop :=
  Forall (fun tracks : list Track => (length tracks <= n)%nat) (heap app).

(** ** How a session changes the store *)

(** Two states have the same list objects, cache and current playlist. *)
Definition same_store (a b : App) : Prop :=
  heap b = heap a /\ tracks_cache b = tracks_cache a
  /\ current_playlist b = current_playlist a.

(** From [a] to [b] every list object keeps its address and its tracks,
    up to their order, and every cache entry keeps its address. *)
Definition evolves (a b : App) : Prop :=
  (forall l tracks, heap a !! l = Some tracks ->
                    exists tracks', heap b !! l = Some tracks'
                                    /\ tracks' ≡ₚ tracks)
  /\ (forall key l, tracks_cache a !! key = Some l ->
                    tracks_cache b !! key = Some l).

(** ** Sidebar and result lists *)

(** The title cached for a playlist. *)
Definition cached_title (entry : PlaylistEntry) : option string :=
  match entry_title entry with
  | Value v => v
  | _ => Some "Playlist"
  end.

(** The rating key under which the loop keeps a playlist, when it keeps
    it: both reads succeed and the key is not 0. *)
Definition kept_key (entry : PlaylistEntry) : option Z :=
  match entry_title entry, entry_ratingKey entry with
  | Raises, _ => None
  | _, Value (Some k) => if k =? 0 then None else Some k
  | _, _ => None
  end.

Definition kept (entry : PlaylistEntry) : bool :=
  match kept_key entry with Some _ => true | None => false end.

(** The sidebar built from the playlists [seen]: [playlists] holds the
    kept ones in order; every entry of [playlist_cache] is filed under
    the key read from a kept playlist, with that playlist and its cached
    title; and the key of every kept playlist has an entry, made from a
    kept playlist with the same key. *)
Definition sidebar_indexed (seen : list PlaylistEntry) (sb : Sidebar) : Prop :=
  playlists sb = map entry_playlist (List.filter kept seen)
  /\ (forall key title p,
        dict_get (playlist_cache sb) key = Some (title, p) ->
        exists entry k,
          entry ∈ seen /\ kept_key entry = Some k /\ key = PyInt.str k
          /\ p = entry_playlist entry /\ title = cached_title entry)
  /\ (forall entry k,
        entry ∈ seen -> kept_key entry = Some k ->
        exists entry',
          entry' ∈ seen /\ kept_key entry' = Some k
          /\ dict_get (playlist_cache sb) (PyInt.str k)
             = Some (cached_title entry', entry_playlist entry')).

(** The id of the list entry of a track. *)
Definition track_id (t : Track) : option string :=
  (fun key => String.append "track-" (PyInt.str key)) <$> track_ratingKey t.

(** The track has a rating key, and it is not [k]. *)
Definition other_key (k : Z) (t : Track) : Prop :=
  exists k', track_ratingKey t = Some k' /\ k' <> k.

Definition not_artist (section : LibrarySection) : Prop :=
  section_type section <> "artist".

(** ** Finding the player *)

(** The search through the Homebrew directories. *)
Definition brew_fallback (host : Host) (player_cmd : string) : option string :=
  if String.eqb (system host) "Darwin"
  then first_executable host homebrew_paths player_cmd
  else None.

(** ** More sample objects *)

Module Scene.

Definition keyless_playlist : Playlist :=
  {| playlist_ratingKey := None; playlist_title := Some "Mix";
     leafCount := Absent; childCount := Absent; playlist_data := None;
     items := Return [Sample.titled_track 2 "B"] |}.

Definition three_tracks : Playlist :=
  Sample.playlist_with 6 "Mix" None
    (Return [Sample.titled_track 1 "A"; Sample.titled_track 2 "B";
             Sample.titled_track 3 "C"]).

(** A library whose search fails and whose full enumeration answers. *)
Definition scan_library : Library :=
  {| recentlyAdded := fun _ => Raise OtherError;
     search_sorted := fun _ => Raise OtherError;
     search := fun _ => Raise OtherError;
     library_all := Return (replicate 70 (Sample.titled_track 4 "D")) |}.

Definition artist_section : LibrarySection :=
  {| section_type := "artist"; section_library := Sample.old_library |}.

Definition movie_section : LibrarySection :=
  {| section_type := "movie"; section_library := Sample.failing_library |}.

Definition player_env : Env :=
  {| plex := None; music_library := None; player_found := true;
     can_start := true; can_signal := true; can_terminate := true |}.

(** A machine without ffplay. *)
Definition no_player : Env :=
  {| plex := None; music_library := None; player_found := false;
     can_start := true; can_signal := true; can_terminate := true |}.

(** A session in which the first of three tracks is playing. *)
Definition three_playing : App :=
  run (init player_env) [Selected three_tracks; PlayPause (fun _ => 0%nat)].

(** A Mac with ffplay installed by Homebrew only. *)
Definition mac : Host :=
  {| which := fun _ => None; system := "Darwin";
     isfile := fun path => String.eqb path "/usr/local/bin/ffplay";
     access_x := fun _ => true |}.

(** A track without rating key. *)
Definition keyless_track : Track :=
  {| track_ratingKey := None; track_title := Some "Song";
     grandparentTitle := Value (Some "Z"); originalTitle := Value None;
     parentTitle := Value None; track_data := None;
     track_artist := Raise OtherError;
     track_stream_url := Return (Some "http://plex/song") |}.

(** A session with a music library and nothing loaded. *)
Definition searching : App :=
  init {| plex := None; music_library := Some Sample.old_library;
          player_found := true; can_start := true; can_signal := true;
          can_terminate := true |}.

Definition empty_pane : SearchPane :=
  {| search_results := []; search_list := [] |}.

(** Seventy tracks with the rating keys 1 to 70, and their playlist. *)
Definition seventy_tracks : list Track :=
  map (fun n => Sample.titled_track (Z.of_nat n) "T") (seq 1 70).

Definition seventy : Playlist :=
  Sample.playlist_with 10 "Seventy" None (Return seventy_tracks).

Definition empty_playlist : Playlist :=
  Sample.playlist_with 11 "Empty" None (Return []).

(** A session in which the seventy tracks are cached and highlighted,
    the current playlist is empty and nothing plays. *)
Definition idle_with_cache : App :=
  run (init Sample.no_server)
      [Selected seventy; Selected empty_playlist; Highlighted seventy].

(** A playlist that declares 5000 tracks and holds 70. *)
Definition long_mix : Playlist :=
  Sample.playlist_with 8 "Long Mix" (Some 5000)
    (Return (replicate 70 (Sample.titled_track 2 "B"))).

(** A playlist whose items cannot be read. *)
Definition broken_playlist : Playlist :=
  Sample.playlist_with 4 "Mix" None (Raise OtherError).

End Scene.

(** * Properties *)

(** ** Strings *)



Lemma or_else_nonempty (o : option string) (d : string) :
  d <> "" -> Py.or_else o d <> "".
Proof.
  intros Hd. destruct o as [[|c s]|]; simpl; congruence.
Qed.

Lemma truthy_true_iff (s : string) : Py.truthy s = true <-> s <> "".
Proof. destruct s; simpl; split; congruence. Qed.

Example strip_examples :
  Py.strip "  Band X " = "Band X" /\ Py.strip " " = "" /\ Py.strip "a b" = "a b".
Proof. repeat split; reflexivity. Qed.

Example int_examples :
  PyInt.int " 42 " = Some 42 /\ PyInt.int "1_000" = Some 1000
  /\ PyInt.int "-7" = Some (-7) /\ PyInt.int "+7" = Some 7
  /\ PyInt.int "" = None /\ PyInt.int "1__0" = None /\ PyInt.int "_1" = None
  /\ PyInt.int "12a" = None /\ PyInt.int "- 7" = None.
Proof. repeat split; reflexivity. Qed.

(** [int()] does not skip U+001C, which [str.strip] removes; it skips
    the no-break space; and it refuses more than 4300 digits. *)
Example int_limits :
  PyInt.int (String (ascii_of_nat 28) "5") = None
  /\ Py.strip (String (ascii_of_nat 28) "5") = "5"
  /\ PyInt.int (String (ascii_of_nat 160) "5") = Some 5
  /\ PyInt.int (string_of_list_ascii (repeat "0"%char 4300)) = Some 0
  /\ PyInt.int (string_of_list_ascii (repeat "0"%char 4301)) = None.
Proof. repeat split; vm_compute; reflexivity. Qed.

Example str_examples :
  PyInt.str 0 = "0" /\ PyInt.str 1234 = "1234" /\ PyInt.str (-12) = "-12".
Proof. repeat split; reflexivity. Qed.

(** ** The capped loop and the slice *)

Lemma collect_take (limit i : Z) (its tracks : list Track) :
  collect limit i its tracks = tracks ++ take (Z.to_nat (limit - i)) its.
Proof.
  revert i tracks. induction its as [|t its IH]; intros i tracks; simpl.
  - by rewrite take_nil, app_nil_r.
  - destruct (Z.ltb_spec i limit) as [Hlt|Hge].
    + rewrite IH, <- app_assoc. simpl.
      replace (Z.to_nat (limit - i)) with (S (Z.to_nat (limit - (i + 1)))) by lia.
      reflexivity.
    + replace (Z.to_nat (limit - i)) with 0%nat by lia.
      by rewrite app_nil_r.
Qed.

Lemma collect_length (limit : Z) (its : list Track) :
  0 <= limit -> Z.of_nat (length (collect limit 0 its [])) <= limit.
Proof.
  intros Hl. rewrite collect_take. simpl. rewrite length_take. lia.
Qed.

Lemma slice_to_length {A} (l : list A) (stop : Z) :
  0 <= stop -> Z.of_nat (length (slice_to l stop)) <= stop.
Proof.
  intros Hs. unfold slice_to.
  destruct (Z.leb_spec 0 stop); [|lia]. rewrite length_take. lia.
Qed.

(** ** Limits *)

Lemma chosen_limit_default (count : option Z) :
  chosen_limit None count = 50 \/ chosen_limit None count = 100.
Proof. unfold chosen_limit. destruct (is_large_playlist count); auto. Qed.

Lemma is_large_playlist_iff (count : option Z) :
  is_large_playlist count = true <-> exists n, count = Some n /\ n > 1000.
Proof.
  unfold is_large_playlist, LARGE_PLAYLIST_THRESHOLD. destruct count as [n|].
  - rewrite andb_true_iff, negb_true_iff, Z.eqb_neq, Z.gtb_gt. split.
    + intros [_ H]. exists n. split; [done | lia].
    + intros (m & [= <-] & H). lia.
  - split; [discriminate | intros (n & H & _); discriminate].
Qed.

(** ** The fetch *)

Lemma fetch_items_length (p : Playlist) (limit : Z) (made0 : list Call)
      (tracks : list Track) (made : list Call) :
  0 <= limit ->
  fetch_items p limit [] made0 = (Return tracks, made) ->
  Z.of_nat (length tracks) <= limit.
Proof.
  intros Hl. unfold fetch_items. destruct (items p) as [e|its]; intros [= <- <-].
  by apply collect_length.
Qed.

Lemma fetch_length (p : Playlist) (limit : Z) (lib : option Library)
      (count : option Z) (tracks : list Track) (made : list Call) :
  0 <= limit ->
  fetch p limit lib count = (Return tracks, made) ->
  Z.of_nat (length tracks) <= limit.
Proof.
  intros Hl. unfold fetch.
  destruct (select_strategy lib (playlist_title p) count), lib as [l|];
    try (by apply fetch_items_length).
  - unfold fetch_recent.
    destruct (recentlyAdded l _) as [[]|all_tracks].
    + destruct (search_sorted l _) as [e|all_tracks].
      * by apply fetch_items_length.
      * intros [= <- <-]. by apply collect_length.
    + by apply fetch_items_length.
    + intros [= <- <-]. by apply collect_length.
  - unfold fetch_library.
    destruct (search l _) as [e|all_tracks].
    + destruct (library_all l) as [e'|all_tracks].
      * by apply fetch_items_length.
      * intros [= <- <-]. by apply collect_length.
    + intros [= <- <-].
      destruct (Z.gtb_spec (Z.of_nat (length all_tracks)) limit) as [Hgt|Hle];
        [by apply slice_to_length | lia].
Qed.

(** C1. Whatever the remote sources return, a fetch with the default
    limit produces a track list no longer than the cap it chose (50 for a
    large playlist, 100 otherwise), in every branch and every fallback. *)
Theorem fetch_tracks_length_le_cap (lib : option Library) (p : Playlist)
        (tracks : list Track) (made : list Call) :
  fetch_tracks lib p None = (Return tracks, made) ->
  Z.of_nat (length tracks) <= chosen_limit None (playlist_count p)
  /\ Z.of_nat (length tracks) <= 100.
Proof.
  unfold fetch_tracks. intros H.
  assert (0 <= chosen_limit None (playlist_count p) <= 100) as Hc
      by (destruct (chosen_limit_default (playlist_count p)) as [-> | ->]; lia).
  apply fetch_length in H; lia.
Qed.

Example big_mix_scan :
  fetch_tracks (Some Sample.old_library) Sample.big_mix None
  = (Return (replicate 50 (Sample.titled_track 3 "C")), [CallSearch 50]).
Proof. reflexivity. Qed.

(** The scenario of a 5000-track playlist: the search answers with 200
    tracks and 50 are kept. *)
Lemma fetch_tracks_length_le_cap_witness :
  Z.of_nat (length (replicate 50 (Sample.titled_track 3 "C")))
  <= chosen_limit None (playlist_count Sample.big_mix)
  /\ Z.of_nat (length (replicate 50 (Sample.titled_track 3 "C"))) <= 100.
Proof.
  exact (fetch_tracks_length_le_cap (Some Sample.old_library) Sample.big_mix
           (replicate 50 (Sample.titled_track 3 "C")) [CallSearch 50] eq_refl).
Defined.

(** ** Strategy selection *)


Lemma select_strategy_cases (lib : option Library) (p : Playlist) :
  strategy_of lib p =
  if is_recently_added (playlist_title p) && bool_decide (is_Some lib)
  then RECENT_FEED
  else if is_large_playlist (playlist_count p) && bool_decide (is_Some lib)
       then LARGE_LIBRARY_SCAN else DIRECT_ENUMERATION.
Proof. reflexivity. Qed.



Example strategy_big_mix :
  strategy_of (Some Sample.old_library) Sample.big_mix = LARGE_LIBRARY_SCAN.
Proof. reflexivity. Qed.

Example strategy_recently_added :
  strategy_of (Some Sample.old_library) Sample.recently_added = RECENT_FEED.
Proof. reflexivity. Qed.

(** The substring test is case-sensitive. *)
Example strategy_lower_case :
  strategy_of (Some Sample.old_library)
    (Sample.playlist_with 4 "recently added" None (Return []))
  = DIRECT_ENUMERATION.
Proof. reflexivity. Qed.

(** The title rule wins over the size rule. *)
Example strategy_precedence :
  strategy_of (Some Sample.old_library)
    (Sample.playlist_with 4 "Recently Added" (Some 5000) (Return []))
  = RECENT_FEED.
Proof. reflexivity. Qed.

(** The count is read from the raw document when the playlist has
    neither [leafCount] nor [childCount]. *)
Example strategy_counted_in_document :
  playlist_count Sample.counted_in_document = Some 5000
  /\ strategy_of (Some Sample.old_library) Sample.counted_in_document
     = LARGE_LIBRARY_SCAN.
Proof. split; reflexivity. Qed.

(** Without a library handle everything is enumerated directly. *)
Example strategy_no_library :
  strategy_of None Sample.big_mix = DIRECT_ENUMERATION
  /\ strategy_of None Sample.recently_added = DIRECT_ENUMERATION.
Proof. split; reflexivity. Qed.

(** ** The cap *)

(** The recent feed is selected for a playlist of unknown size, yet the
    cap is 100; direct enumeration is selected for a large playlist when
    no library handle exists, yet the cap is 50. *)
Lemma cap_by_strategy_counterexample :
  ~ (strategy_of (Some Sample.old_library) Sample.recently_added = RECENT_FEED ->
     chosen_limit None (playlist_count Sample.recently_added) = 50)
  /\ ~ (strategy_of None Sample.big_mix = DIRECT_ENUMERATION ->
        chosen_limit None (playlist_count Sample.big_mix) = 100).
Proof.
  split; intros H; specialize (H eq_refl); vm_compute in H; discriminate.
Qed.

Lemma fetch_items_maxresults (p : Playlist) (limit n : Z) (made0 : list Call) :
  Forall (fun c => forall m, maxresults_of c = Some m -> m = n) made0 ->
  Forall (fun c => forall m, maxresults_of c = Some m -> m = n)
         (snd (fetch_items p limit [] made0)).
Proof.
  intros H. unfold fetch_items.
  destruct (items p); simpl; apply Forall_app; split; auto;
    repeat constructor; simpl; discriminate.
Qed.

Lemma fetch_maxresults (p : Playlist) (limit : Z) (lib : option Library)
      (count : option Z) :
  Forall (fun c => forall m, maxresults_of c = Some m -> m = api_limit limit)
         (snd (fetch p limit lib count)).
Proof.
  unfold fetch.
  destruct (select_strategy lib (playlist_title p) count), lib as [l|];
    try (apply fetch_items_maxresults; constructor).
  - unfold fetch_recent.
    destruct (recentlyAdded l _) as [[]|all_tracks].
    + destruct (search_sorted l _) as [e|all_tracks].
      * apply fetch_items_maxresults. repeat constructor; simpl; congruence.
      * repeat constructor; simpl; congruence.
    + apply fetch_items_maxresults. repeat constructor; simpl; congruence.
    + repeat constructor; simpl; congruence.
  - unfold fetch_library.
    destruct (search l _) as [e|all_tracks].
    + destruct (library_all l) as [e'|all_tracks].
      * apply fetch_items_maxresults. repeat constructor; simpl; congruence.
      * repeat constructor; simpl; congruence.
    + repeat constructor; simpl; congruence.
Qed.

(** C5, amended. The cap follows the declared size, not the strategy:
    without an explicit limit it is 50 when the declared count is known
    and exceeds 1000, and 100 otherwise.  Hence the library scan always
    runs with 50, while the recent feed and direct enumeration run with
    50 or 100 according to the count.  Every [maxresults] sent to the
    server is the cap clamped to 1000. *)
Theorem cap_follows_declared_count (lib : option Library) (p : Playlist)
        (limit : option Z) :
  (count_exceeds_threshold p -> chosen_limit None (playlist_count p) = 50)
  /\ (~ count_exceeds_threshold p -> chosen_limit None (playlist_count p) = 100)
  /\ (strategy_of lib p = LARGE_LIBRARY_SCAN ->
      chosen_limit None (playlist_count p) = 50)
  /\ Forall (fun c => forall m, maxresults_of c = Some m ->
                      m = Z.min (chosen_limit limit (playlist_count p)) 1000
                      /\ m <= 1000)
            (snd (fetch_tracks lib p limit)).
Proof.
  unfold count_exceeds_threshold. rewrite <- is_large_playlist_iff.
  repeat split.
  - intros H. unfold chosen_limit. by rewrite H.
  - intros H. unfold chosen_limit.
    by destruct (is_large_playlist (playlist_count p)).
  - rewrite select_strategy_cases. unfold chosen_limit.
    destruct (is_recently_added _ && _); [discriminate|].
    destruct (is_large_playlist (playlist_count p)); [done | discriminate].
  - unfold fetch_tracks.
    eapply Forall_impl; [apply fetch_maxresults|].
    intros c H m Hm. apply H in Hm. subst m.
    unfold api_limit, MAX_API_RESULTS. lia.
Qed.

(** ** Fallbacks of the recent feed *)

(** The accessor fails with an error other than [AttributeError]: the
    sorted search, which would have answered, is never asked, and the
    playlist's own items are used. *)
Lemma recent_feed_counterexample :
  strategy_of (Some Sample.failing_library) Sample.recently_added = RECENT_FEED
  /\ recentlyAdded Sample.failing_library 100 = Raise OtherError
  /\ fetch_tracks (Some Sample.failing_library) Sample.recently_added None
     = (Return [Sample.titled_track 2 "B"],
        [CallRecentlyAdded 100; CallItems (Some 2)])
  /\ search_sorted Sample.failing_library 100
     = Return [Sample.titled_track 1 "A"].
Proof. repeat split; reflexivity. Qed.

Lemma fetch_recent_selected (lib : Library) (p : Playlist) (limit : option Z) :
  strategy_of (Some lib) p = RECENT_FEED ->
  fetch_tracks (Some lib) p limit
  = fetch_recent p (chosen_limit limit (playlist_count p)) lib.
Proof.
  unfold fetch_tracks, fetch, strategy_of. by intros ->.
Qed.

(** C6, amended. Under the recent feed, when the accessor raises
    [AttributeError] (the method is not available) the sorted search by
    recency is asked with the same limit; when the accessor fails in any
    other way, or the sorted search fails too, the playlist's own items
    are enumerated with the same cap. *)
Theorem recent_feed_fallbacks (lib : Library) (p : Playlist) (limit : option Z) :
  strategy_of (Some lib) p = RECENT_FEED ->
  let cap := chosen_limit limit (playlist_count p) in
  let n := api_limit cap in
  let key := playlist_ratingKey p in
  (forall all_tracks,
      recentlyAdded lib n = Raise AttributeError ->
      search_sorted lib n = Return all_tracks ->
      fetch_tracks (Some lib) p limit
      = (Return (take (Z.to_nat cap) all_tracks),
         [CallRecentlyAdded n; CallSearchSorted n]))
  /\ (forall e,
      recentlyAdded lib n = Raise AttributeError ->
      search_sorted lib n = Raise e ->
      fetch_tracks (Some lib) p limit
      = (direct_enumeration p cap,
         [CallRecentlyAdded n; CallSearchSorted n; CallItems key]))
  /\ (recentlyAdded lib n = Raise OtherError ->
      fetch_tracks (Some lib) p limit
      = (direct_enumeration p cap, [CallRecentlyAdded n; CallItems key])).
Proof.
  intros Hs cap n key. rewrite (fetch_recent_selected _ _ _ Hs).
  fold cap. unfold fetch_recent. fold n.
  unfold direct_enumeration, fetch, fetch_items; simpl.
  replace (select_strategy None (playlist_title p) None)
    with DIRECT_ENUMERATION
    by (unfold select_strategy; simpl; by rewrite andb_false_r).
  repeat split.
  - intros all_tracks -> ->. by rewrite collect_take, Z.sub_0_r.
  - intros e -> ->. by destruct (items p).
  - intros ->. by destruct (items p).
Qed.

Lemma recent_feed_fallbacks_witness :
  fetch_tracks (Some Sample.old_library) Sample.recently_added None
  = (Return [Sample.titled_track 1 "A"],
     [CallRecentlyAdded 100; CallSearchSorted 100]).
Proof.
  exact (proj1 (recent_feed_fallbacks Sample.old_library Sample.recently_added
                  None eq_refl) _ eq_refl eq_refl).
Defined.

(** ** Artist resolution *)

(** A tier that overrides [artist] with what it found, if anything. *)
Lemma override_tier (m : option string -> option string) :
  (forall a, Py.truthy_opt a = true -> m a = a) ->
  (forall a, Py.truthy_opt a = false ->
             m a = match m None with Some v => Some v | None => a end) ->
  tier_eq m.
Proof.
  intros Hkeep Hover a. destruct (Py.truthy_opt a) eqn:Ha; [by apply Hkeep|].
  rewrite (Hover a Ha). destruct (m None) as [v|]; simpl; [|done].
  by destruct (Py.truthy v).
Qed.

Lemma structured_eq (attr : Attr string) (a : option string) :
  structured attr a
  = match structured attr None with Some v => Some v | None => a end.
Proof. unfold structured. destruct attr as [| |[[|c s]|]]; reflexivity. Qed.

Lemma xml_lookup_eq (names : list string) (data : list Element) (a : option string) :
  xml_lookup names data a
  = match xml_lookup names data None with Some v => Some v | None => a end.
Proof.
  induction names as [|n names IH]; simpl; [done|].
  by destruct (elem_text (find n data)).
Qed.

Lemma from_reloaded_eq (reloaded : Track) (a : option string) :
  from_reloaded reloaded a
  = match from_reloaded reloaded None with Some v => Some v | None => a end.
Proof.
  unfold from_reloaded.
  destruct (grandparentTitle reloaded) as [| |[[|c s]|]]; try reflexivity;
    destruct (track_data reloaded) as [[|e data]|]; try reflexivity;
    cbn; by destruct (elem_text _).
Qed.

Lemma method1_tier (track : Track) : tier_eq (method1 track).
Proof.
  apply override_tier; intros a Ha; unfold method1; rewrite Ha; simpl; [done|].
  apply structured_eq.
Qed.

Lemma method2_tier (track : Track) : tier_eq (method2 track).
Proof.
  apply override_tier; intros a Ha; unfold method2; rewrite Ha;
    destruct (track_data track) as [[|e data]|]; try reflexivity.
  cbv beta iota delta [negb Py.truthy_opt]. apply xml_lookup_eq.
Qed.

Lemma method3_tier (track : Track) : tier_eq (method3 track).
Proof.
  apply override_tier; intros a Ha; unfold method3; rewrite Ha; simpl; [done|].
  apply structured_eq.
Qed.

Lemma method4_tier (track : Track) : tier_eq (method4 track).
Proof.
  apply override_tier; intros a Ha; unfold method4; rewrite Ha; simpl; [done|].
  apply structured_eq.
Qed.

Lemma method5_tier (plex : option PlexServer) (track : Track) :
  tier_eq (fun a => fst (method5 plex track a)).
Proof.
  apply override_tier; intros a Ha; unfold method5; rewrite Ha; simpl; [done|].
  destruct (track_ratingKey track) as [key|]; [|done].
  destruct plex as [server|]; [|done].
  destruct (fetchItem server key) as [e|reloaded]; simpl; [done|].
  apply from_reloaded_eq.
Qed.

(** Method 6 resets an empty [artist] to [None] when the artist object
    has an empty title. *)
Lemma method6_tier (track : Track) : tier_eq (fun a => fst (method6 track a)).
Proof.
  intros a. unfold method6. destruct (Py.truthy_opt a) eqn:Ha; simpl; [done|].
  destruct (track_artist track) as [e|[[[[|c s]|]|[|c s]]|]]; simpl;
    try done; by destruct (Py.truthy (Py.strip _)).
Qed.

Lemma artist_tiers_chain (plex : option PlexServer) (track : Track) :
  fst (artist_tiers plex track) = chain (tiers plex track) None.
Proof.
  unfold artist_tiers, chain, tiers; simpl.
  destruct (method5 plex track _) as [a5 c5]; simpl.
  by destruct (method6 track a5).
Qed.

Lemma chain_truthy (ms : list (option string -> option string)) (a : option string) :
  Forall tier_eq ms -> Py.truthy_opt a = true -> chain ms a = a.
Proof.
  intros Hms. revert a. induction Hms as [|m ms Hm _ IH]; intros a Ha; [done|].
  unfold chain in *; simpl. specialize (Hm a). rewrite Ha in Hm.
  rewrite Hm. by apply IH.
Qed.

Lemma chain_first_yield (ms : list (option string -> option string))
      (a : option string) :
  Forall tier_eq ms -> Py.truthy_opt a = false ->
  match first_yield (map (fun m => m None) ms) with
  | Some v => chain ms a = Some v
  | None => Py.truthy_opt (chain ms a) = false
  end.
Proof.
  intros Hms. revert a. induction Hms as [|m ms Hm Hms IH]; intros a Ha; [done|].
  cbn [map first_yield]. unfold chain in *; cbn [fold_left].
  specialize (Hm a). rewrite Ha in Hm.
  destruct (Py.truthy_opt (m None)) eqn:Hv.
  - rewrite Hm. destruct (m None) as [v|]; [|done].
    by apply (chain_truthy ms (Some v)).
  - by apply IH.
Qed.

Lemma first_yield_truthy (ys : list (option string)) (v : string) :
  first_yield ys = Some v -> Py.truthy v = true.
Proof.
  induction ys as [|y ys IH]; simpl; [done|].
  destruct (Py.truthy_opt y) eqn:Hy; [|done]. by intros ->.
Qed.

Lemma first_yield_none (ys : list (option string)) :
  first_yield ys = None <-> Forall (fun y => Py.truthy_opt y = false) ys.
Proof.
  induction ys as [|y ys IH]; simpl.
  - split; [constructor | done].
  - destruct (Py.truthy_opt y) eqn:Hy.
    + split.
      * intros ->. discriminate.
      * intros H. inversion H; congruence.
    + rewrite IH. split; [by constructor | intros H; by inversion H].
Qed.

Lemma tiers_are_tiers (plex : option PlexServer) (track : Track) :
  Forall tier_eq (tiers plex track).
Proof.
  unfold tiers.
  repeat constructor;
    auto using method1_tier, method2_tier, method3_tier, method4_tier,
               method5_tier, method6_tier.
Qed.

(** The resolver returns the first non-empty yield of the tiers, and
    "Unknown" when there is none. *)
Lemma get_artist_name_first_yield (plex : option PlexServer) (track : Track) :
  fst (_get_artist_name plex track)
  = default "Unknown" (first_yield (tier_yields plex track)).
Proof.
  unfold _get_artist_name.
  pose proof (artist_tiers_chain plex track) as Hc.
  destruct (artist_tiers plex track) as [artist made].
  cbn [fst] in *. subst artist.
  pose proof (chain_first_yield _ None (tiers_are_tiers plex track) eq_refl) as H.
  fold (tier_yields plex track) in H.
  destruct (first_yield (tier_yields plex track)) as [v|] eqn:Hy.
  - rewrite H. cbn [Py.or_else default]. by rewrite (first_yield_truthy _ _ Hy).
  - destruct (chain _ _) as [[|c s]|]; cbn in *; done.
Qed.

(** A track whose artist is literally called "Unknown": the first tier
    answers, and the answer cannot be told from the fallback. *)
Lemma unknown_artist_counterexample :
  fst (_get_artist_name None (Sample.titled_track 1 "Unknown")) = "Unknown"
  /\ method1 (Sample.titled_track 1 "Unknown") None = Some "Unknown"
  /\ ~ exhausted None (Sample.titled_track 1 "Unknown").
Proof.
  repeat split. intros H. inversion H as [|y ys Hy _]. discriminate Hy.
Qed.

(** C4, amended. Artist resolution is total and never yields the empty
    string: it returns the first non-empty value a tier produces, and
    "Unknown" when every tier is exhausted.  A result of "Unknown"
    therefore means that the tiers are exhausted or that a tier itself
    produced the text "Unknown". *)
Theorem artist_resolution_total (plex : option PlexServer) (track : Track) :
  fst (_get_artist_name plex track) <> ""
  /\ (exhausted plex track -> fst (_get_artist_name plex track) = "Unknown")
  /\ (forall v, first_yield (tier_yields plex track) = Some v ->
                fst (_get_artist_name plex track) = v)
  /\ (fst (_get_artist_name plex track) = "Unknown" ->
      exhausted plex track
      \/ first_yield (tier_yields plex track) = Some "Unknown").
Proof.
  rewrite get_artist_name_first_yield. unfold exhausted.
  rewrite <- first_yield_none.
  destruct (first_yield (tier_yields plex track)) as [v|] eqn:Hy; simpl.
  - apply first_yield_truthy in Hy. apply truthy_true_iff in Hy.
    repeat split; try done.
    + by intros v' [= ->].
    + intros ->. by right.
  - repeat split; try done. by left.
Qed.

Example unknown_when_exhausted :
  _get_artist_name None (Sample.bare_track 7)
  = ("Unknown", [CallArtist (Some 7)]).
Proof. reflexivity. Qed.

(** *** The raw document *)

Lemma xml_lookup_first_candidate (data : list Element) (a : option string) :
  xml_lookup xml_names data a
  = match first_candidate data with
    | Some t => Some (Py.strip t)
    | None => a
    end.
Proof.
  unfold first_candidate, candidate, xml_names; simpl.
  repeat (destruct (elem_text _); [done|]). done.
Qed.

Lemma first_candidate_nonempty (data : list Element) (t : string) :
  first_candidate data = Some t -> data <> [].
Proof. intros H ->. discriminate H. Qed.

(** Once a cheap tier has answered, no call leaves the process. *)
Lemma no_calls_when_found (plex : option PlexServer) (track : Track)
      (artist : option string) :
  Py.truthy_opt artist = true ->
  method5 plex track artist = (artist, [])
  /\ method6 track artist = (artist, []).
Proof. intros H. unfold method5, method6. by rewrite H. Qed.

(** The document's first candidate is blank: the loop stops on it, the
    next candidate "Band X" is never looked at, and both the reload and
    the artist lookup are attempted. *)
Lemma blank_candidate_counterexample :
  method1 Sample.blank_first_track None = None
  /\ candidate Sample.blank_first_document "grandparentTitle" = Some " "
  /\ candidate Sample.blank_first_document "originalTitle" = Some "Band X"
  /\ _get_artist_name (Some Sample.unreachable_server) Sample.blank_first_track
     = ("Unknown", [CallFetchItem 7; CallArtist (Some 7)]).
Proof. repeat split; reflexivity. Qed.

(** C7, amended. When the structured grandparent title yields nothing
    and the raw document has a candidate (the first of grandparentTitle,
    originalTitle, parentTitle whose element has a non-empty text) that is
    still non-empty once trimmed, the resolver returns that trimmed text
    and attempts neither the reload nor the artist lookup. *)
Theorem raw_document_candidate (plex : option PlexServer) (track : Track)
        (data : list Element) (t : string) :
  Py.truthy_opt (method1 track None) = false ->
  track_data track = Some data ->
  first_candidate data = Some t ->
  Py.strip t <> "" ->
  _get_artist_name plex track = (Py.strip t, []).
Proof.
  intros H1 Hd Hc Ht. apply truthy_true_iff in Ht.
  assert (method2 track (method1 track None) = Some (Py.strip t)) as H2.
  { unfold method2. rewrite Hd, H1.
    destruct data as [|e data]; [discriminate Hc|].
    cbv beta iota delta [negb]. by rewrite xml_lookup_first_candidate, Hc. }
  unfold _get_artist_name, artist_tiers. rewrite H2.
  pose proof (method3_tier track (Some (Py.strip t))) as H3.
  pose proof (method4_tier track (Some (Py.strip t))) as H4.
  cbn [Py.truthy_opt] in H3, H4. rewrite Ht in H3, H4. rewrite H3, H4.
  destruct (no_calls_when_found plex track (Some (Py.strip t)) Ht) as [-> ->].
  cbn. by rewrite Ht.
Qed.

(** The scenario of an [originalTitle] element holding "Band X". *)
Lemma raw_document_candidate_witness :
  _get_artist_name (Some Sample.unreachable_server) Sample.band_x_track
  = ("Band X", []).
Proof.
  refine (raw_document_candidate
            (Some Sample.unreachable_server) Sample.band_x_track
            Sample.band_x_document " Band X " _ _ _ _);
    [reflexivity | reflexivity | reflexivity | vm_compute; discriminate].
Defined.

(** ** The cache *)

Lemma get_artist_name_calls (plex : option PlexServer) (track : Track) :
  Forall (fun c => is_fetch_call c = false) (snd (_get_artist_name plex track)).
Proof.
  unfold _get_artist_name, artist_tiers.
  destruct (method5 plex track _) as [a5 c5] eqn:H5.
  destruct (method6 track a5) as [a6 c6] eqn:H6. simpl.
  apply Forall_app. split.
  - unfold method5 in H5.
    destruct (negb _), (track_ratingKey track), plex as [srv|];
      try (injection H5 as <- <-; constructor).
    destruct (fetchItem srv _); injection H5 as <- <-; by repeat constructor.
  - unfold method6 in H6.
    destruct (negb _); injection H6 as <- <-; by repeat constructor.
Qed.

Lemma display_lines_calls (plex : option PlexServer) (tracks : list Track) :
  Forall (fun c => is_fetch_call c = false) (snd (display_lines plex tracks)).
Proof.
  induction tracks as [|t tracks IH]; simpl; [constructor|].
  pose proof (get_artist_name_calls plex t) as Ht.
  destruct (_get_artist_name plex t) as [artist made].
  destruct (display_lines plex tracks) as [track_lines made']. simpl in *.
  by apply Forall_app.
Qed.

Lemma str_truthy (k : Z) : Py.truthy (PyInt.str k) = true.
Proof.
  unfold PyInt.str. destruct (Z.to_int k) as [d|d]; simpl; [|done];
    destruct d; reflexivity.
Qed.

Lemma cache_get_key (cache : gmap string loc) (p : Playlist) (k : Z) :
  playlist_ratingKey p = Some k ->
  cache_get cache (playlist_key p) = cache !! PyInt.str k.
Proof.
  intros H. unfold cache_get, playlist_key. rewrite H. simpl.
  by rewrite str_truthy.
Qed.

Lemma cache_put_key (cache : gmap string loc) (p : Playlist) (k : Z) (l : loc) :
  playlist_ratingKey p = Some k ->
  cache_put cache (playlist_key p) l = <[PyInt.str k := l]> cache.
Proof.
  intros H. unfold cache_put, playlist_key. rewrite H. simpl.
  by rewrite str_truthy.
Qed.

(** The state a cache hit leads to. *)
Lemma load_hit (app : App) (p : Playlist) (limit : option Z) (l : loc) :
  cache_get (tracks_cache app) (playlist_key p) = Some l ->
  let s := _load_playlist_tracks app p limit in
  env s = env app /\ heap s = heap app /\ tracks_cache s = tracks_cache app
  /\ current_playlist s = l /\ current_index s = 0 /\ player s = player app
  /\ _highlighted_playlist s = _highlighted_playlist app
  /\ calls s
     = calls app
       ++ snd (display_lines (plex (env app)) (take 20 (deref (heap app) l))).
Proof.
  intros H. unfold _load_playlist_tracks. rewrite H.
  unfold _update_playlist_display. cbn [env heap].
  by destruct (display_lines _ _).
Qed.

(** The state a successful fetch leads to. *)
Lemma load_fetched (app : App) (p : Playlist) (limit : option Z)
      (fetched : list Track) (made : list Call) :
  cache_get (tracks_cache app) (playlist_key p) = None ->
  fetch_tracks (music_library (env app)) p limit = (Return fetched, made) ->
  let s := _load_playlist_tracks app p limit in
  env s = env app /\ heap s = heap app ++ [fetched]
  /\ tracks_cache s
     = cache_put (tracks_cache app) (playlist_key p) (length (heap app))
  /\ current_playlist s = length (heap app) /\ current_index s = 0
  /\ player s = player app
  /\ _highlighted_playlist s = _highlighted_playlist app.
Proof.
  intros H Hf. unfold _load_playlist_tracks. rewrite H, Hf.
  unfold _update_playlist_display. cbn [env heap].
  by destruct (display_lines _ _).
Qed.

(** The state a failed fetch leads to: nothing is installed or cached. *)
Lemma load_failed (app : App) (p : Playlist) (limit : option Z)
      (e : Exn) (made : list Call) :
  cache_get (tracks_cache app) (playlist_key p) = None ->
  fetch_tracks (music_library (env app)) p limit = (Raise e, made) ->
  let s := _load_playlist_tracks app p limit in
  env s = env app /\ heap s = heap app /\ tracks_cache s = tracks_cache app
  /\ current_playlist s = current_playlist app
  /\ current_index s = current_index app /\ player s = player app
  /\ _highlighted_playlist s = _highlighted_playlist app.
Proof.
  intros H Hf. unfold _load_playlist_tracks. by rewrite H, Hf.
Qed.

(** C3. Once a playlist with an id has been loaded (from the cache or by
    a fetch that succeeded), its id is in the cache and a second load is
    a cache hit: it installs the very same list object, changes neither
    the heap nor the cache, and issues no call of the fetch.  The first
    load leaves the cache as it was on a hit or a failed fetch and adds
    exactly the entry for this id on a successful fetch. *)
Theorem second_load_hits_cache (app : App) (p : Playlist) (k : Z)
        (limit limit' : option Z) (l : loc) :
  playlist_ratingKey p = Some k ->
  tracks_cache (_load_playlist_tracks app p limit) !! PyInt.str k = Some l ->
  let s1 := _load_playlist_tracks app p limit in
  let s2 := _load_playlist_tracks s1 p limit' in
  current_playlist s1 = l /\ current_playlist s2 = l
  /\ heap s2 = heap s1 /\ tracks_cache s2 = tracks_cache s1
  /\ playlist_of s2 = playlist_of s1
  /\ (exists made, calls s2 = calls s1 ++ made
                   /\ Forall (fun c => is_fetch_call c = false) made)
  /\ (tracks_cache s1 = tracks_cache app
      \/ (tracks_cache app !! PyInt.str k = None
          /\ (exists made, fetch_tracks (music_library (env app)) p limit
                           = (Return (playlist_of s1), made))
          /\ tracks_cache s1 = <[PyInt.str k := l]> (tracks_cache app))).
Proof.
  intros Hk Hl s1 s2.
  assert (current_playlist s1 = l
          /\ (tracks_cache s1 = tracks_cache app
              \/ (tracks_cache app !! PyInt.str k = None
                  /\ (exists made, fetch_tracks (music_library (env app)) p limit
                                   = (Return (playlist_of s1), made))
                  /\ tracks_cache s1 = <[PyInt.str k := l]> (tracks_cache app))))
    as [Hc1 Hpop].
  { destruct (cache_get (tracks_cache app) (playlist_key p)) as [l0|] eqn:Hget.
    - destruct (load_hit app p limit l0 Hget) as (_ & _ & Hc & Hcur & _).
      fold s1 in Hc, Hcur, Hl. rewrite Hc in Hl.
      rewrite (cache_get_key _ _ _ Hk) in Hget. split; [congruence | by left].
    - destruct (fetch_tracks (music_library (env app)) p limit)
        as [[e|fetched] made] eqn:Hf.
      + destruct (load_failed app p limit e made Hget Hf) as (_ & _ & Hc & _).
        fold s1 in Hc, Hl. rewrite Hc in Hl.
        rewrite (cache_get_key _ _ _ Hk) in Hget. congruence.
      + destruct (load_fetched app p limit fetched made Hget Hf)
          as (_ & Hh & Hc & Hcur & _).
        fold s1 in Hh, Hc, Hcur, Hl.
        rewrite (cache_put_key _ _ _ _ Hk) in Hc.
        rewrite Hc, lookup_insert_eq in Hl. injection Hl as <-.
        split; [done|]. right.
        rewrite (cache_get_key _ _ _ Hk) in Hget. repeat split; [done | | done].
        exists made. unfold playlist_of, deref. rewrite Hh, Hcur.
        rewrite lookup_app_r, Nat.sub_diag by lia. done. }
  assert (cache_get (tracks_cache s1) (playlist_key p) = Some l) as Hhit
      by (by rewrite (cache_get_key _ _ _ Hk)).
  destruct (load_hit s1 p limit' l Hhit)
    as (_ & Hh & Hc & Hcur & _ & _ & _ & Hcalls).
  fold s2 in Hh, Hc, Hcur, Hcalls.
  repeat split; try done.
  - unfold playlist_of. by rewrite Hh, Hcur, Hc1.
  - eexists. split; [exact Hcalls | apply display_lines_calls].
Qed.

(** A first load by direct enumeration, then a second load: both leave
    the list object at address 1 current. *)
Lemma second_load_hits_cache_witness :
  current_playlist Sample.small_loaded = 1%nat
  /\ current_playlist
       (_load_playlist_tracks Sample.small_loaded Sample.small_playlist None)
     = 1%nat.
Proof.
  pose proof (second_load_hits_cache
                (init Sample.no_server) Sample.small_playlist 1
                None None 1%nat eq_refl) as H.
  destruct H as (H1 & H2 & _); [vm_compute; reflexivity | ].
  split; [exact H1 | exact H2].
Defined.

(** ** Repeated resolution *)

(** Loading the playlist and loading it again (a cache hit, which only
    redraws the list) reloads the track both times. *)
Lemma resolution_not_cached_counterexample :
  _get_artist_name (Some Sample.reloading_server) (Sample.bare_track 7)
  = ("Band X", [CallFetchItem 7])
  /\ calls Sample.lazy_loaded = [CallItems (Some 9); CallFetchItem 7]
  /\ calls (_load_playlist_tracks Sample.lazy_loaded Sample.lazy_playlist None)
     = [CallItems (Some 9); CallFetchItem 7; CallFetchItem 7].
Proof. repeat split; vm_compute; reflexivity. Qed.

(** A resolution stays local exactly when one of the first four tiers
    answers. *)
Lemma no_calls_iff_cheap (plex : option PlexServer) (track : Track) :
  snd (_get_artist_name plex track) = []
  <-> Py.truthy_opt (cheap_tiers track) = true.
Proof.
  unfold _get_artist_name, artist_tiers. fold (cheap_tiers track).
  destruct (Py.truthy_opt (cheap_tiers track)) eqn:H4.
  - destruct (no_calls_when_found plex track _ H4) as [-> ->]. by split.
  - split; [|done].
    destruct (method5 plex track _) as [a5 c5] eqn:H5.
    unfold method6. destruct (Py.truthy_opt a5) eqn:Ha5; simpl.
    + unfold method5 in H5. rewrite H4 in H5. simpl in H5.
      destruct (track_ratingKey track) as [key|];
        [|injection H5 as <- <-; congruence].
      destruct plex as [server|]; [|injection H5 as <- <-; congruence].
      destruct (fetchItem server key); injection H5 as <- <-; done.
    + intros H. by apply app_eq_nil in H as [_ H].
Qed.

(** C8, amended. Nothing is stored on a track: a resolution is a function
    of the track and of the server's answers, and every display of a
    cached list runs the tier chain again.  Two redraws of the same
    cached playlist leave the list objects untouched, show the same
    lines, and each issues the same reload and artist-lookup calls; a
    track is resolved without any call exactly when one of the tiers 1-4
    answers. *)
Theorem redraw_repeats_resolution (app : App) (p : Playlist) (l : loc) :
  cache_get (tracks_cache app) (playlist_key p) = Some l ->
  let s1 := _load_playlist_tracks app p None in
  let s2 := _load_playlist_tracks s1 p None in
  let shown := display_lines (plex (env app)) (take 20 (deref (heap app) l)) in
  heap s2 = heap app
  /\ main_content s1 = TrackLines (length (deref (heap app) l)) None (fst shown)
  /\ main_content s2 = main_content s1
  /\ calls s1 = calls app ++ snd shown
  /\ calls s2 = calls s1 ++ snd shown
  /\ (forall track,
         snd (_get_artist_name (plex (env app)) track) = []
         <-> Py.truthy_opt (cheap_tiers track) = true).
Proof.
  intros Hget s1 s2 shown.
  destruct (load_hit app p None l Hget) as (He & Hh & Hc & _ & _ & _ & _ & Hcalls).
  fold s1 in He, Hh, Hc, Hcalls.
  assert (cache_get (tracks_cache s1) (playlist_key p) = Some l) as Hget'
      by (by rewrite Hc).
  destruct (load_hit s1 p None l Hget') as (_ & Hh' & _ & _ & _ & _ & _ & Hcalls').
  fold s2 in Hh', Hcalls'. rewrite He, Hh in Hcalls'.
  assert (main_content s1
          = TrackLines (length (deref (heap app) l)) None (fst shown)) as Hm1.
  { unfold s1, _load_playlist_tracks. rewrite Hget.
    unfold _update_playlist_display. cbn [env heap]. fold shown.
    by destruct shown. }
  assert (main_content s2
          = TrackLines (length (deref (heap app) l)) None (fst shown)) as Hm2.
  { unfold s2, _load_playlist_tracks. rewrite Hget'.
    unfold _update_playlist_display. cbn [env heap]. rewrite He, Hh.
    fold shown. by destruct shown. }
  split; [congruence|]. split; [done|]. split; [congruence|].
  split; [done|]. split; [done|].
  intros track. apply no_calls_iff_cheap.
Qed.

(** Two redraws of the cached playlist: each reloads the track. *)
Lemma redraw_repeats_resolution_witness :
  calls (_load_playlist_tracks
           (_load_playlist_tracks Sample.lazy_loaded Sample.lazy_playlist None)
           Sample.lazy_playlist None)
  = [CallItems (Some 9); CallFetchItem 7; CallFetchItem 7] ++ [CallFetchItem 7].
Proof.
  pose proof (redraw_repeats_resolution
                Sample.lazy_loaded Sample.lazy_playlist 1%nat) as H.
  destruct H as (_ & _ & _ & _ & H & _); [vm_compute; reflexivity | exact H].
Defined.

(** ** The playback cursor *)

(** Playing a track touches the player and the call log only. *)
Lemma play_track_frame (app : App) (track : Track) :
  let s := _play_track app track in
  env s = env app /\ heap s = heap app /\ tracks_cache s = tracks_cache app
  /\ current_playlist s = current_playlist app
  /\ current_index s = current_index app
  /\ _highlighted_playlist s = _highlighted_playlist app.
Proof.
  unfold _play_track.
  destruct (track_stream_url track) as [e|[url|]]; try done.
  destruct (Py.truthy url); [|done].
  destruct (_get_artist_name _ track) as [artist made]. cbn.
  by destruct (player_found (env app)), (can_start (env app)).
Qed.

Lemma play_at_frame (app : App) (i : Z) :
  let s := play_at app i in
  env s = env app /\ heap s = heap app /\ tracks_cache s = tracks_cache app
  /\ current_playlist s = current_playlist app
  /\ current_index s = current_index app
  /\ _highlighted_playlist s = _highlighted_playlist app.
Proof.
  unfold play_at. destruct (index _ i) as [track|]; [|done].
  apply play_track_frame.
Qed.

Lemma play_at_playlist (app : App) (i : Z) :
  playlist_of (play_at app i) = playlist_of app.
Proof.
  destruct (play_at_frame app i) as (_ & Hh & _ & Hc & _).
  unfold playlist_of. by rewrite Hh, Hc.
Qed.

Lemma play_at_index (app : App) (i : Z) :
  current_index (play_at app i) = current_index app.
Proof. by destruct (play_at_frame app i) as (_ & _ & _ & _ & Hi & _). Qed.

Lemma cursor_ok_zero (app : App) : current_index app = 0 -> cursor_ok app.
Proof. unfold cursor_ok. intros ->. simpl. lia. Qed.

Lemma reset_or_kept_cursor (app s : App) :
  reset_or_kept app s -> cursor_ok app -> cursor_ok s.
Proof.
  intros [H0 | [Hp Hi]] Hok; [by apply cursor_ok_zero|].
  unfold cursor_ok in *. by rewrite Hp, Hi.
Qed.

Lemma reset_or_kept_refl (app : App) : reset_or_kept app app.
Proof. by right. Qed.

Lemma has_tracks_length (app : App) :
  has_tracks app = true <-> (0 < length (playlist_of app))%nat.
Proof.
  unfold has_tracks. destruct (playlist_of app); simpl; split; (done || lia).
Qed.

Lemma load_reset_or_kept (app : App) (p : Playlist) (limit : option Z) :
  reset_or_kept app (_load_playlist_tracks app p limit).
Proof.
  destruct (cache_get (tracks_cache app) (playlist_key p)) as [l|] eqn:Hget.
  - left. by destruct (load_hit app p limit l Hget) as (_ & _ & _ & _ & H & _).
  - destruct (fetch_tracks (music_library (env app)) p limit)
      as [[e|fetched] made] eqn:Hf.
    + right.
      destruct (load_failed app p limit e made Hget Hf)
        as (_ & Hh & _ & Hc & Hi & _).
      unfold playlist_of. by rewrite Hh, Hc, Hi.
    + left.
      by destruct (load_fetched app p limit fetched made Hget Hf)
        as (_ & _ & _ & _ & H & _).
Qed.

Lemma action_next_spec (app : App) :
  (has_tracks app = true
   /\ current_index app < Z.of_nat (length (playlist_of app)) - 1
   /\ current_index (action_next app) = current_index app + 1
   /\ playlist_of (action_next app) = playlist_of app)
  \/ ((has_tracks app = false
       \/ Z.of_nat (length (playlist_of app)) - 1 <= current_index app)
      /\ action_next app = app).
Proof.
  unfold action_next.
  destruct (has_tracks app) eqn:Ht; simpl; [|right; auto].
  destruct (Z.ltb_spec (current_index app)
              (Z.of_nat (length (playlist_of app)) - 1)) as [Hlt|Hge].
  - left. rewrite play_at_index, play_at_playlist. by repeat split.
  - right. auto.
Qed.

Lemma action_previous_spec (app : App) :
  (has_tracks app = true /\ 0 < current_index app
   /\ current_index (action_previous app) = current_index app - 1
   /\ playlist_of (action_previous app) = playlist_of app)
  \/ ((has_tracks app = false \/ current_index app <= 0)
      /\ action_previous app = app).
Proof.
  unfold action_previous.
  destruct (has_tracks app) eqn:Ht; simpl; [|right; auto].
  destruct (Z.gtb_spec (current_index app) 0) as [Hgt|Hle].
  - left. rewrite play_at_index, play_at_playlist. by repeat split.
  - right. auto.
Qed.

Lemma action_random_spec (app : App) (randbelow : nat -> nat) :
  (has_tracks app = true /\ current_index (action_random app randbelow) = 0)
  \/ (has_tracks app = false /\ action_random app randbelow = app).
Proof.
  unfold action_random. destruct (has_tracks app); [left | right]; [|done].
  by rewrite play_at_index.
Qed.

Lemma action_play_pause_reset_or_kept (app : App) (randbelow : nat -> nat) :
  reset_or_kept app (action_play_pause app randbelow).
Proof.
  unfold action_play_pause.
  destruct (current_process (player app)).
  { destruct (can_signal (env app)); by right. }
  destruct (has_tracks app).
  { left. by rewrite play_at_index. }
  destruct (_highlighted_playlist app) as [p|]; [|by right].
  destruct (playlist_bool p) as [e|[|]]; [by right| |by right].
  destruct (has_tracks (_load_playlist_tracks (test_highlighted app p) p None)).
  - left. by rewrite play_at_index.
  - apply (load_reset_or_kept (test_highlighted app p)).
Qed.

Lemma on_list_view_selected_reset_or_kept (app : App) (p : Playlist) :
  reset_or_kept app (on_list_view_selected app p).
Proof.
  unfold on_list_view_selected.
  match goal with
  | |- reset_or_kept _ (_load_playlist_tracks ?a _ _) =>
      destruct (load_reset_or_kept a p None) as [H0 | [Hp Hi]]
  end; [by left|].
  right. rewrite Hp, Hi.
  destruct (current_process (player (set_highlighted app (Some p))));
    [|done].
  by destruct (can_terminate _).
Qed.

Lemma step_cursor_ok (app : App) (ev : Event) :
  cursor_ok app -> cursor_ok (step app ev).
Proof.
  intros Hok. destruct ev as [p|p| |r| | |r]; simpl.
  - exact Hok.
  - eapply reset_or_kept_cursor;
      [apply on_list_view_selected_reset_or_kept | exact Hok].
  - unfold action_load_playlist.
    destruct (_highlighted_playlist app) as [p|]; [|done].
    destruct (playlist_bool p); [done|].
    eapply reset_or_kept_cursor;
      [apply (load_reset_or_kept (test_highlighted app p)) | exact Hok].
  - eapply reset_or_kept_cursor; [apply action_play_pause_reset_or_kept | exact Hok].
  - destruct (action_next_spec app) as [(Ht & Hlt & Hi & Hp) | [_ ->]]; [|done].
    unfold cursor_ok in *. rewrite Hi, Hp. lia.
  - destruct (action_previous_spec app) as [(Ht & Hlt & Hi & Hp) | [_ ->]]; [|done].
    unfold cursor_ok in *. rewrite Hi, Hp. lia.
  - destruct (action_random_spec app r) as [[_ H0] | [_ ->]]; [|done].
    by apply cursor_ok_zero.
Qed.

Lemma run_cursor_ok (app : App) (evs : list Event) :
  cursor_ok app -> cursor_ok (run app evs).
Proof.
  revert app. induction evs as [|ev evs IH]; intros app Hok; [done|].
  apply IH. by apply step_cursor_ok.
Qed.

(** C9. In every session the cursor is an index into the current list
    (and 0 while the list is empty).  [action_next] and
    [action_previous] move it by one inside the list and change nothing
    at the last, respectively first, track or on an empty list; loading,
    selecting, [action_random] and [action_play_pause] either put the
    cursor back to 0 or leave list and cursor untouched. *)
Theorem cursor_stays_in_bounds :
  (forall e evs, cursor_ok (run (init e) evs))
  /\ (forall app ev, cursor_ok app -> cursor_ok (step app ev))
  /\ (forall app,
         (has_tracks app = true
          /\ current_index app < Z.of_nat (length (playlist_of app)) - 1
          /\ current_index (action_next app) = current_index app + 1
          /\ playlist_of (action_next app) = playlist_of app)
         \/ ((has_tracks app = false
              \/ Z.of_nat (length (playlist_of app)) - 1 <= current_index app)
             /\ action_next app = app))
  /\ (forall app,
         (has_tracks app = true /\ 0 < current_index app
          /\ current_index (action_previous app) = current_index app - 1
          /\ playlist_of (action_previous app) = playlist_of app)
         \/ ((has_tracks app = false \/ current_index app <= 0)
             /\ action_previous app = app))
  /\ (forall app p limit, reset_or_kept app (_load_playlist_tracks app p limit))
  /\ (forall app p, reset_or_kept app (on_list_view_selected app p))
  /\ (forall app r,
         (has_tracks app = true /\ current_index (action_random app r) = 0)
         \/ (has_tracks app = false /\ action_random app r = app))
  /\ (forall app r, reset_or_kept app (action_play_pause app r)).
Proof.
  repeat split.
  - intros e evs. by apply run_cursor_ok, cursor_ok_zero.
  - apply step_cursor_ok.
  - apply action_next_spec.
  - apply action_previous_spec.
  - apply load_reset_or_kept.
  - apply on_list_view_selected_reset_or_kept.
  - apply action_random_spec.
  - apply action_play_pause_reset_or_kept.
Qed.

(** ** Shuffling and the cache *)

Lemma swap_Permutation {A} (x : list A) (i j : nat) : swap x i j ≡ₚ x.
Proof.
  unfold swap.
  destruct (x !! i) as [a|] eqn:Hi; [|done].
  destruct (x !! j) as [b|] eqn:Hj; [|done].
  by apply Permutation_insert_swap.
Qed.

Lemma shuffle_from_Permutation {A} (r : nat -> nat) (i : nat) (x : list A) :
  shuffle_from r i x ≡ₚ x.
Proof.
  revert x. induction i as [|i IH]; intros x; simpl; [done|].
  rewrite IH. apply swap_Permutation.
Qed.

Lemma shuffle_Permutation {A} (r : nat -> nat) (x : list A) : shuffle r x ≡ₚ x.
Proof. apply shuffle_from_Permutation. Qed.

Lemma shuffle_length {A} (r : nat -> nat) (x : list A) :
  length (shuffle r x) = length x.
Proof. apply Permutation_length, shuffle_Permutation. Qed.

(** What [random.shuffle] followed by playing the first track does to
    the state. *)
Lemma shuffle_current_frame (app : App) (r : nat -> nat) :
  let s := play_at (set_index (shuffle_current app r) 0) 0 in
  env s = env app
  /\ heap s = <[current_playlist app := shuffle r (playlist_of app)]> (heap app)
  /\ tracks_cache s = tracks_cache app
  /\ current_playlist s = current_playlist app
  /\ current_index s = 0.
Proof.
  cbv zeta.
  destruct (play_at_frame (set_index (shuffle_current app r) 0) 0)
    as (He & Hh & Hc & Hcur & Hi & _).
  by rewrite He, Hh, Hc, Hcur, Hi.
Qed.

Lemma deref_lookup (h : list (list Track)) (l : loc) (tracks : list Track) :
  h !! l = Some tracks -> deref h l = tracks.
Proof. unfold deref. by intros ->. Qed.

Lemma has_tracks_nonempty (app : App) (t : Track) (tracks : list Track) :
  playlist_of app = t :: tracks -> has_tracks app = true.
Proof. unfold has_tracks. by intros ->. Qed.

(** C10. A cache hit makes the cached list object itself the current
    playlist.  [action_random] therefore permutes the cached entry in
    place, and so does the automatic shuffle of [action_play_pause] on a
    list of more than 50 tracks, which is reached when the highlighted
    playlist tests true; the cache still maps the id to that object, and
    a later hit installs the shuffled order. *)
Theorem shuffle_reaches_cache (app : App) (p : Playlist) (l : loc)
        (tracks : list Track) (r : nat -> nat) :
  cache_get (tracks_cache app) (playlist_key p) = Some l ->
  heap app !! l = Some tracks ->
  let s1 := _load_playlist_tracks app p None in
  let s2 := action_random s1 r in
  let s3 := _load_playlist_tracks s2 p None in
  current_playlist s1 = l /\ playlist_of s1 = tracks
  /\ heap s2 !! l = Some (shuffle r tracks)
  /\ cache_get (tracks_cache s2) (playlist_key p) = Some l
  /\ current_playlist s3 = l /\ playlist_of s3 = shuffle r tracks
  /\ shuffle r tracks ≡ₚ tracks
  /\ (current_process (player app) = None ->
      has_tracks app = false ->
      _highlighted_playlist app = Some p ->
      playlist_bool p = Return true ->
      (50 < length tracks)%nat ->
      let s2' := action_play_pause app r in
      heap s2' !! l = Some (shuffle r tracks)
      /\ cache_get (tracks_cache s2') (playlist_key p) = Some l
      /\ playlist_of (_load_playlist_tracks s2' p None) = shuffle r tracks).
Proof.
  intros Hget Hl s1 s2 s3.
  destruct (load_hit app p None l Hget) as (He1 & Hh1 & Hc1 & Hcur1 & _).
  fold s1 in He1, Hh1, Hc1, Hcur1.
  assert (playlist_of s1 = tracks) as Hp1.
  { unfold playlist_of. rewrite Hh1, Hcur1. by apply deref_lookup. }
  assert (l < length (heap app))%nat as Hlt by (by eapply lookup_lt_Some).
  (* a hit on a state whose heap holds the shuffled list at [l] *)
  assert (forall s : App,
             heap s = <[l := shuffle r tracks]> (heap app) ->
             tracks_cache s = tracks_cache app ->
             let s' := _load_playlist_tracks s p None in
             current_playlist s' = l /\ playlist_of s' = shuffle r tracks)
    as Hlater.
  { intros s Hh Hc s'.
    assert (cache_get (tracks_cache s) (playlist_key p) = Some l) as Hg
        by (by rewrite Hc).
    destruct (load_hit s p None l Hg) as (_ & Hh' & _ & Hcur' & _).
    fold s' in Hh', Hcur'. split; [done|].
    unfold playlist_of. rewrite Hh', Hcur', Hh. apply deref_lookup.
    by apply list_lookup_insert_eq. }
  assert (heap s2 = <[l := shuffle r tracks]> (heap app)
          /\ tracks_cache s2 = tracks_cache app) as [Hh2 Hc2].
  { unfold s2, action_random.
    destruct tracks as [|t tracks].
    - assert (has_tracks s1 = false) as -> by (unfold has_tracks; by rewrite Hp1).
      rewrite Hh1, Hc1. split; [|done].
      symmetry. by apply list_insert_id.
    - rewrite (has_tracks_nonempty s1 t tracks Hp1).
      destruct (shuffle_current_frame s1 r) as (_ & Hh & Hc & _).
      rewrite Hh, Hc, Hcur1, Hp1, Hh1. by split. }
  destruct (Hlater s2 Hh2 Hc2) as [Hcur3 Hp3].
  split; [done|]. split; [done|].
  split; [rewrite Hh2; by apply list_lookup_insert_eq|].
  split; [by rewrite Hc2|].
  split; [done|]. split; [done|].
  split; [apply shuffle_Permutation|].
  - intros Hproc Hnone Hhl Htrue Hlen s2'.
    assert (heap s2' = <[l := shuffle r tracks]> (heap app)
            /\ tracks_cache s2' = tracks_cache app) as [Hh2' Hc2'].
    { unfold s2', action_play_pause. rewrite Hproc, Hnone, Hhl, Htrue.
      destruct (load_hit (test_highlighted app p) p None l Hget)
        as (_ & Hh1' & Hc1' & Hcur1' & _).
      set (s1' := _load_playlist_tracks (test_highlighted app p) p None) in *.
      assert (playlist_of s1' = tracks) as Hp1'.
      { unfold playlist_of. rewrite Hh1', Hcur1'. by apply deref_lookup. }
      assert (has_tracks s1' = true) as ->
          by (apply has_tracks_length; rewrite Hp1'; lia).
      assert ((Z.of_nat (length (playlist_of s1')) >? 50) = true) as ->
          by (rewrite Hp1'; apply Z.gtb_gt; lia).
      destruct (shuffle_current_frame s1' r) as (_ & Hh & Hc & _).
      rewrite Hh, Hc, Hcur1', Hp1', Hh1'. by split. }
    destruct (Hlater s2' Hh2' Hc2') as [_ Hp3'].
    repeat split; try done.
    + rewrite Hh2'. by apply list_lookup_insert_eq.
    + by rewrite Hc2'.
Qed.

(** Load, shuffle with a generator that always answers 0, load again:
    the cache now serves the swapped order.  And space on the
    highlighted, cached playlist of seventy tracks: the cached list is
    shuffled where it lives, and the next load serves that order. *)
Lemma shuffle_reaches_cache_witness :
  playlist_of
    (_load_playlist_tracks
       (action_random
          (_load_playlist_tracks Sample.two_loaded Sample.two_tracks None)
          (fun _ => 0%nat))
       Sample.two_tracks None)
  = [Sample.titled_track 2 "B"; Sample.titled_track 1 "A"]
  /\ playlist_of
       (_load_playlist_tracks
          (action_play_pause Scene.idle_with_cache (fun _ => 0%nat))
          Scene.seventy None)
     = shuffle (fun _ => 0%nat) Scene.seventy_tracks
  /\ head (shuffle (fun _ => 0%nat) Scene.seventy_tracks)
     = Some (Sample.titled_track 2 "T").
Proof.
  split; [|split].
  - pose proof (shuffle_reaches_cache
                  Sample.two_loaded Sample.two_tracks 1%nat
                  [Sample.titled_track 1 "A"; Sample.titled_track 2 "B"]
                  (fun _ => 0%nat)) as H.
    destruct H as (_ & _ & _ & _ & _ & H & _);
      [vm_compute; reflexivity | vm_compute; reflexivity | exact H].
  - pose proof (shuffle_reaches_cache
                  Scene.idle_with_cache Scene.seventy 1%nat
                  Scene.seventy_tracks (fun _ => 0%nat)) as H.
    destruct H as (_ & _ & _ & _ & _ & _ & _ & H);
      [vm_compute; reflexivity | vm_compute; reflexivity |].
    destruct H as (_ & _ & H);
      [vm_compute; reflexivity | vm_compute; reflexivity
       | vm_compute; reflexivity | vm_compute; reflexivity
       | vm_compute; lia | exact H].
  - vm_compute. reflexivity.
Defined.

(** * Further properties *)

(** ** What a fetch returns *)

Lemma capped_slice_take (all_tracks : list Track) (limit : Z) :
  0 <= limit ->
  (if Z.of_nat (length all_tracks) >? limit then slice_to all_tracks limit
   else all_tracks)
  = take (Z.to_nat limit) all_tracks.
Proof.
  intros Hl. destruct (Z.gtb_spec (Z.of_nat (length all_tracks)) limit).
  - unfold slice_to. by destruct (Z.leb_spec 0 limit); [|lia].
  - symmetry. apply take_ge. lia.
Qed.

Lemma fetch_items_take (p : Playlist) (limit : Z) (made0 : list Call) :
  fetch_items p limit [] made0
  = (match items p with
     | Return its => Return (take (Z.to_nat limit) its)
     | Raise e => Raise e
     end, made0 ++ [CallItems (playlist_ratingKey p)]).
Proof.
  unfold fetch_items. destruct (items p) as [e|its]; [done|].
  by rewrite collect_take, Z.sub_0_r.
Qed.

Lemma fetch_items_answer (lib : option Library) (p : Playlist) (limit n : Z)
      (made0 made : list Call) (tracks : list Track) :
  fetch_items p limit [] made0 = (Return tracks, made) ->
  exists source, is_answer lib p n source
                 /\ tracks = take (Z.to_nat limit) source.
Proof.
  rewrite fetch_items_take. destruct (items p) as [e|its] eqn:Hi; [done|].
  intros [= <- _]. exists its. split; [by left | done].
Qed.

(** X1. The fetched list is the first [cap] tracks, in order, of what one of
    the remote calls answered: nothing is reordered, repeated or made
    up. *)
Theorem fetch_is_prefix_of_answer (lib : option Library) (p : Playlist)
        (limit : option Z) (tracks : list Track) (made : list Call) :
  0 <= chosen_limit limit (playlist_count p) ->
  fetch_tracks lib p limit = (Return tracks, made) ->
  exists source,
    is_answer lib p (api_limit (chosen_limit limit (playlist_count p))) source
    /\ tracks = take (Z.to_nat (chosen_limit limit (playlist_count p))) source.
Proof.
  unfold fetch_tracks, fetch.
  set (cap := chosen_limit limit (playlist_count p)). intros Hcap.
  destruct (select_strategy lib (playlist_title p) (playlist_count p)),
    lib as [l|]; try (by apply fetch_items_answer).
  - unfold fetch_recent.
    destruct (recentlyAdded l _) as [[]|all_tracks] eqn:Hr.
    + destruct (search_sorted l _) as [e|all_tracks] eqn:Hs.
      * by apply fetch_items_answer.
      * intros [= <- _]. exists all_tracks.
        rewrite collect_take, Z.sub_0_r. split; [|done].
        right. exists l. auto.
    + by apply fetch_items_answer.
    + intros [= <- _]. exists all_tracks.
      rewrite collect_take, Z.sub_0_r. split; [|done].
      right. exists l. auto.
  - unfold fetch_library.
    destruct (search l _) as [e|all_tracks] eqn:Hs.
    + destruct (library_all l) as [e'|all_tracks] eqn:Ha.
      * by apply fetch_items_answer.
      * intros [= <- _]. exists all_tracks.
        rewrite collect_take, Z.sub_0_r. split; [|done].
        right. exists l. auto 6.
    + intros [= <- _]. exists all_tracks.
      rewrite capped_slice_take by done. split; [|done].
      right. exists l. auto 6.
Qed.

Lemma fetch_is_prefix_of_answer_witness :
  exists source,
    is_answer (Some Sample.old_library) Sample.big_mix 50 source
    /\ replicate 50 (Sample.titled_track 3 "C") = take 50 source.
Proof.
  refine (fetch_is_prefix_of_answer (Some Sample.old_library) Sample.big_mix
            None (replicate 50 (Sample.titled_track 3 "C")) [CallSearch 50]
            _ eq_refl).
  vm_compute. discriminate.
Defined.

(** X2. Direct enumeration asks the playlist for its items once: it keeps
    the first [cap] of them in order, and fails with the very error of
    [items()]. *)
Theorem direct_enumeration_exact (lib : option Library) (p : Playlist)
        (limit : option Z) :
  strategy_of lib p = DIRECT_ENUMERATION ->
  fetch_tracks lib p limit
  = (match items p with
     | Return its =>
         Return (take (Z.to_nat (chosen_limit limit (playlist_count p))) its)
     | Raise e => Raise e
     end, [CallItems (playlist_ratingKey p)]).
Proof.
  unfold strategy_of, fetch_tracks, fetch. intros ->.
  by destruct lib; rewrite fetch_items_take.
Qed.

Lemma direct_enumeration_exact_witness :
  fetch_tracks None Scene.three_tracks (Some 2)
  = (Return [Sample.titled_track 1 "A"; Sample.titled_track 2 "B"],
     [CallItems (Some 6)]).
Proof.
  exact (direct_enumeration_exact None Scene.three_tracks (Some 2) eq_refl).
Defined.

Lemma fetch_library_selected (lib : Library) (p : Playlist) (limit : option Z) :
  strategy_of (Some lib) p = LARGE_LIBRARY_SCAN ->
  fetch_tracks (Some lib) p limit
  = fetch_library p (chosen_limit limit (playlist_count p)) lib.
Proof. unfold fetch_tracks, fetch, strategy_of. by intros ->. Qed.

Lemma direct_enumeration_items (p : Playlist) (limit : Z) (made0 : list Call) :
  fetch_items p limit [] made0
  = (direct_enumeration p limit, made0 ++ [CallItems (playlist_ratingKey p)]).
Proof.
  unfold direct_enumeration, fetch.
  replace (select_strategy None (playlist_title p) None)
    with DIRECT_ENUMERATION
    by (unfold select_strategy; simpl; by rewrite andb_false_r).
  rewrite !fetch_items_take. done.
Qed.

(** X3. The library scan of a large playlist, with the default limit: the
    search is asked for 50 tracks and its first 50 are kept; when the
    search fails the whole library is enumerated and cut at 50; when that
    fails too the playlist's own items are enumerated. *)
Theorem library_scan_fallbacks (lib : Library) (p : Playlist) :
  strategy_of (Some lib) p = LARGE_LIBRARY_SCAN ->
  (forall all_tracks,
      search lib 50 = Return all_tracks ->
      fetch_tracks (Some lib) p None
      = (Return (take 50 all_tracks), [CallSearch 50]))
  /\ (forall e all_tracks,
      search lib 50 = Raise e ->
      library_all lib = Return all_tracks ->
      fetch_tracks (Some lib) p None
      = (Return (take 50 all_tracks), [CallSearch 50; CallAll]))
  /\ (forall e e',
      search lib 50 = Raise e ->
      library_all lib = Raise e' ->
      fetch_tracks (Some lib) p None
      = (direct_enumeration p 50,
         [CallSearch 50; CallAll; CallItems (playlist_ratingKey p)])).
Proof.
  intros Hs. rewrite (fetch_library_selected _ _ _ Hs).
  assert (chosen_limit None (playlist_count p) = 50) as ->.
  { revert Hs. rewrite select_strategy_cases. unfold chosen_limit.
    destruct (is_recently_added _ && _); [discriminate|].
    by destruct (is_large_playlist (playlist_count p)). }
  unfold fetch_library. change (api_limit 50) with 50.
  split; [|split].
  - intros all_tracks ->. by rewrite (capped_slice_take all_tracks 50).
  - intros e all_tracks -> ->. by rewrite collect_take.
  - intros e e' -> ->. by rewrite direct_enumeration_items.
Qed.

Lemma library_scan_fallbacks_witness :
  fetch_tracks (Some Scene.scan_library) Sample.big_mix None
  = (Return (take 50 (replicate 70 (Sample.titled_track 4 "D"))),
     [CallSearch 50; CallAll]).
Proof.
  exact (proj1 (proj2 (library_scan_fallbacks Scene.scan_library Sample.big_mix
                         eq_refl))
               OtherError _ eq_refl eq_refl).
Defined.

Lemma fetch_items_outcome (p : Playlist) (limit : Z) (made0 : list Call) :
  (forall e made, fetch_items p limit [] made0 = (Raise e, made) ->
                  items p = Raise e)
  /\ (forall its, items p = Return its ->
                  exists tracks made,
                    fetch_items p limit [] made0 = (Return tracks, made)).
Proof.
  rewrite fetch_items_take. split.
  - intros e made. destruct (items p); [by intros [= -> _] | done].
  - intros its ->. eauto.
Qed.

(** X4. A fetch fails only when [playlist.items()] is reached and fails, and
    then with the same error; whenever [items()] answers, a fetch
    succeeds, whatever the library does. *)
Theorem fetch_fails_only_with_items (lib : option Library) (p : Playlist)
        (limit : option Z) :
  (forall e made, fetch_tracks lib p limit = (Raise e, made) ->
                  items p = Raise e)
  /\ (forall its, items p = Return its ->
                  exists tracks made,
                    fetch_tracks lib p limit = (Return tracks, made)).
Proof.
  unfold fetch_tracks, fetch.
  set (cap := chosen_limit limit (playlist_count p)).
  pose proof (fun made0 => proj1 (fetch_items_outcome p cap made0)) as Hraise.
  pose proof (fun made0 => proj2 (fetch_items_outcome p cap made0)) as Hret.
  destruct (select_strategy lib (playlist_title p) (playlist_count p)),
    lib as [l|]; try (split; [apply Hraise | apply Hret]).
  - unfold fetch_recent.
    destruct (recentlyAdded l _) as [[]|all_tracks];
      [destruct (search_sorted l _) as [e|all_tracks]| |];
      try (split; [apply Hraise | apply Hret]);
      (split; [discriminate | eauto]).
  - unfold fetch_library.
    destruct (search l _) as [e|all_tracks];
      [destruct (library_all l) as [e'|all_tracks]|];
      try (split; [apply Hraise | apply Hret]);
      (split; [discriminate | eauto]).
Qed.

(** ** Sessions and the store *)

(** Every handler is built from loads with the default limit, shuffles
    of the current list and steps that leave the store alone. *)
Lemma step_closure (R : App -> App -> Prop) :
  (forall a b c, R a b -> R b c -> R a c) ->
  (forall a b, same_store a b -> R a b) ->
  (forall a p, R a (_load_playlist_tracks a p None)) ->
  (forall a r, R a (shuffle_current a r)) ->
  forall app ev, R app (step app ev).
Proof.
  intros Htrans Hsame Hload Hshuffle.
  assert (forall a, R a a) as Hrefl by (intros a; by apply Hsame).
  assert (forall a i, R a (play_at a i)) as Hplay.
  { intros a i. apply Hsame.
    by destruct (play_at_frame a i) as (_ & ? & ? & ? & _). }
  assert (forall a, R a (play_at (set_index a 0) 0)) as Hfirst.
  { intros a. eapply Htrans; [|apply Hplay]. by apply Hsame. }
  intros app [p|p| |r| | |r]; simpl.
  - by apply Hsame.
  - unfold on_list_view_selected.
    eapply Htrans; [|apply Hload]. apply Hsame.
    destruct (current_process (player (set_highlighted app (Some p))));
      [|done].
    by destruct (can_terminate _).
  - unfold action_load_playlist.
    destruct (_highlighted_playlist app) as [p|]; [|done].
    assert (R app (test_highlighted app p)) as Htest by (by apply Hsame).
    destruct (playlist_bool p); [done|].
    eapply Htrans; [apply Htest | apply Hload].
  - unfold action_play_pause.
    destruct (current_process (player app)).
    { apply Hsame. by destruct (can_signal (env app)). }
    destruct (has_tracks app); [apply Hfirst|].
    destruct (_highlighted_playlist app) as [p|]; [|done].
    assert (R app (test_highlighted app p)) as Htest by (by apply Hsame).
    destruct (playlist_bool p) as [e|[|]]; [done| |done].
    eapply Htrans; [apply Htest|].
    eapply Htrans; [apply (Hload (test_highlighted app p) p)|].
    destruct (has_tracks _); [|done].
    destruct (_ >? 50); [|apply Hfirst].
    eapply Htrans; [apply Hshuffle | apply Hfirst].
  - unfold action_next. destruct (_ && _); [|done].
    eapply Htrans; [|apply Hplay]. by apply Hsame.
  - unfold action_previous. destruct (_ && _); [|done].
    eapply Htrans; [|apply Hplay]. by apply Hsame.
  - unfold action_random. destruct (has_tracks app); [|done].
    eapply Htrans; [apply Hshuffle | apply Hfirst].
Qed.

Lemma run_closure (R : App -> App -> Prop) :
  (forall a b c, R a b -> R b c -> R a c) ->
  (forall a b, same_store a b -> R a b) ->
  (forall a p, R a (_load_playlist_tracks a p None)) ->
  (forall a r, R a (shuffle_current a r)) ->
  forall app evs, R app (run app evs).
Proof.
  intros Htrans Hsame Hload Hshuffle app evs. revert app.
  induction evs as [|ev evs IH]; intros app; [by apply Hsame|].
  apply (Htrans _ (step app ev)); [by apply step_closure | apply IH].
Qed.

Lemma cache_get_lookup (cache : gmap string loc) (key : option string) (l : loc) :
  cache_get cache key = Some l ->
  exists k, key = Some k /\ cache !! k = Some l.
Proof.
  unfold cache_get. destruct key as [k|]; [|done].
  destruct (Py.truthy k); [eauto | done].
Qed.

(** A key that is put into the cache was not in it. *)
Lemma cache_put_fresh (cache : gmap string loc) (key : option string) (l : loc) :
  cache_get cache key = None ->
  cache_put cache key l = cache
  \/ exists k, cache !! k = None /\ cache_put cache key l = <[k := l]> cache.
Proof.
  unfold cache_get, cache_put. destruct key as [k|]; [|by left].
  destruct (Py.truthy k); [|by left]. intros H. right. eauto.
Qed.

Lemma evolves_trans (a b c : App) : evolves a b -> evolves b c -> evolves a c.
Proof.
  intros [Hh1 Hc1] [Hh2 Hc2]. split.
  - intros l tracks H. destruct (Hh1 l tracks H) as (t1 & H1 & Hp1).
    destruct (Hh2 l t1 H1) as (t2 & H2 & Hp2).
    exists t2. split; [done | by rewrite Hp2].
  - intros key l H. by apply Hc2, Hc1.
Qed.

Lemma evolves_same (a b : App) : same_store a b -> evolves a b.
Proof.
  intros (Hh & Hc & _). split.
  - intros l tracks H. exists tracks. by rewrite Hh.
  - intros key l H. by rewrite Hc.
Qed.

Lemma evolves_load (a : App) (p : Playlist) (limit : option Z) :
  evolves a (_load_playlist_tracks a p limit).
Proof.
  destruct (cache_get (tracks_cache a) (playlist_key p)) as [l0|] eqn:Hget.
  - destruct (load_hit a p limit l0 Hget) as (_ & Hh & Hc & _). split.
    + intros l tracks H. exists tracks. by rewrite Hh.
    + intros key l H. by rewrite Hc.
  - destruct (fetch_tracks (music_library (env a)) p limit)
      as [[e|fetched] made] eqn:Hf.
    + destruct (load_failed a p limit e made Hget Hf) as (_ & Hh & Hc & _).
      split.
      * intros l tracks H. exists tracks. by rewrite Hh.
      * intros key l H. by rewrite Hc.
    + destruct (load_fetched a p limit fetched made Hget Hf)
        as (_ & Hh & Hc & _).
      split.
      * intros l tracks H. exists tracks. rewrite Hh. split; [|done].
        by apply lookup_app_l_Some.
      * intros key l H. rewrite Hc.
        destruct (cache_put_fresh _ _ (length (heap a)) Hget)
          as [-> | (k & Hk & ->)]; [done|].
        rewrite lookup_insert_ne; [done | congruence].
Qed.

Lemma evolves_shuffle (a : App) (r : nat -> nat) :
  evolves a (shuffle_current a r).
Proof.
  split; [|done]. intros l tracks H. simpl.
  destruct (decide (l = current_playlist a)) as [->|Hne].
  - exists (shuffle r tracks). split; [|apply shuffle_Permutation].
    unfold playlist_of. rewrite (deref_lookup _ _ _ H).
    apply list_lookup_insert_eq. by eapply lookup_lt_Some.
  - exists tracks. by rewrite list_lookup_insert_ne.
Qed.

(** X5. Whatever is pressed, a list object keeps its address and its tracks
    (only their order may change), and a cache entry is never dropped or
    pointed elsewhere: a cached playlist stays a permutation of what was
    fetched for it. *)
Theorem cached_playlist_persists (app : App) (evs : list Event)
        (key : string) (l : loc) (tracks : list Track) :
  tracks_cache app !! key = Some l ->
  heap app !! l = Some tracks ->
  tracks_cache (run app evs) !! key = Some l
  /\ exists tracks', heap (run app evs) !! l = Some tracks'
                     /\ tracks' ≡ₚ tracks.
Proof.
  intros Hc Hh.
  destruct (run_closure evolves evolves_trans evolves_same
              (fun a p => evolves_load a p None) evolves_shuffle app evs)
    as [Hheap Hcache].
  split; [by apply Hcache | by apply Hheap].
Qed.

Lemma cached_playlist_persists_witness :
  tracks_cache
    (run Sample.two_loaded [Random (fun _ => 0%nat); Selected Sample.small_playlist])
  !! "5" = Some 1%nat
  /\ exists tracks',
      heap (run Sample.two_loaded
              [Random (fun _ => 0%nat); Selected Sample.small_playlist])
      !! 1%nat = Some tracks'
      /\ tracks' ≡ₚ [Sample.titled_track 1 "A"; Sample.titled_track 2 "B"].
Proof.
  refine (cached_playlist_persists Sample.two_loaded
            [Random (fun _ => 0%nat); Selected Sample.small_playlist]
            "5" 1%nat [Sample.titled_track 1 "A"; Sample.titled_track 2 "B"]
            _ _); vm_compute; reflexivity.
Defined.

Lemma cache_wf_load (a : App) (p : Playlist) (limit : option Z) :
  cache_wf a -> cache_wf (_load_playlist_tracks a p limit).
Proof.
  intros (Hcur & Hval & Hinj).
  destruct (cache_get (tracks_cache a) (playlist_key p)) as [l0|] eqn:Hget.
  - destruct (load_hit a p limit l0 Hget) as (_ & Hh & Hc & Hcur' & _).
    apply cache_get_lookup in Hget as (k & _ & Hk).
    unfold cache_wf. rewrite Hh, Hc, Hcur'. eauto.
  - destruct (fetch_tracks (music_library (env a)) p limit)
      as [[e|fetched] made] eqn:Hf.
    + destruct (load_failed a p limit e made Hget Hf)
        as (_ & Hh & Hc & Hcur' & _).
      unfold cache_wf. by rewrite Hh, Hc, Hcur'.
    + destruct (load_fetched a p limit fetched made Hget Hf)
        as (_ & Hh & Hc & Hcur' & _).
      unfold cache_wf. rewrite Hh, Hc, Hcur', length_app. simpl.
      destruct (cache_put_fresh _ _ (length (heap a)) Hget)
        as [-> | (k & Hk & ->)].
      * split; [lia|]. split; [|done].
        intros key l H. apply Hval in H. lia.
      * split; [lia|]. split.
        -- intros key l. destruct (decide (k = key)) as [<-|Hne].
           ++ rewrite lookup_insert_eq. intros [= <-]. lia.
           ++ rewrite lookup_insert_ne by done. intros H. apply Hval in H. lia.
        -- intros k1 k2 l.
           destruct (decide (k = k1)) as [<-|H1], (decide (k = k2)) as [<-|H2];
             rewrite ?lookup_insert_eq, ?lookup_insert_ne by done;
             try done.
           ++ intros [= <-] H. apply Hval in H. lia.
           ++ intros H [= <-]. apply Hval in H. lia.
           ++ apply Hinj.
Qed.

Lemma cache_wf_shuffle (a : App) (r : nat -> nat) :
  cache_wf a -> cache_wf (shuffle_current a r).
Proof. unfold cache_wf. simpl. by rewrite length_insert. Qed.

(** In every session each cached address and the current playlist are
    list objects that exist, and two playlist ids never share a list
    object. *)
Lemma run_cache_wf (e : Env) (evs : list Event) :
  cache_wf (run (init e) evs).
Proof.
  apply (run_closure (fun a b => cache_wf a -> cache_wf b)); try tauto.
  - intros a b (Hh & Hc & Hcur). unfold cache_wf. by rewrite Hh, Hc, Hcur.
  - intros a p. apply cache_wf_load.
  - apply cache_wf_shuffle.
  - unfold cache_wf. simpl. split; [lia|]. by split; intros *.
Qed.

(** X6. Shuffling reorders the cached list of the current playlist only:
    the cached list of any other playlist id is left as it is. *)
Theorem shuffle_spares_other_playlists (e : Env) (evs : list Event)
        (r : nat -> nat) (k1 k2 : string) (l2 : loc) :
  tracks_cache (run (init e) evs) !! k1
  = Some (current_playlist (run (init e) evs)) ->
  k1 <> k2 ->
  tracks_cache (run (init e) evs) !! k2 = Some l2 ->
  heap (action_random (run (init e) evs) r) !! l2
  = heap (run (init e) evs) !! l2
  /\ tracks_cache (action_random (run (init e) evs) r) !! k2 = Some l2.
Proof.
  set (app := run (init e) evs). intros H1 Hne H2.
  destruct (run_cache_wf e evs) as (_ & _ & Hinj). fold app in Hinj.
  assert (current_playlist app <> l2) as Hl.
  { intros <-. apply Hne. by eapply Hinj. }
  unfold action_random. destruct (has_tracks app); [|done].
  destruct (shuffle_current_frame app r) as (_ & Hh & Hc & _).
  rewrite Hh, Hc. split; [|done]. by apply list_lookup_insert_ne.
Qed.

Lemma shuffle_spares_other_playlists_witness :
  heap (action_random
          (run (init Sample.no_server)
               [Selected Sample.small_playlist; Selected Sample.two_tracks])
          (fun _ => 0%nat)) !! 1%nat
  = heap (run (init Sample.no_server)
              [Selected Sample.small_playlist; Selected Sample.two_tracks])
    !! 1%nat
  /\ tracks_cache
       (action_random
          (run (init Sample.no_server)
               [Selected Sample.small_playlist; Selected Sample.two_tracks])
          (fun _ => 0%nat)) !! "1" = Some 1%nat.
Proof.
  refine (shuffle_spares_other_playlists Sample.no_server
            [Selected Sample.small_playlist; Selected Sample.two_tracks]
            (fun _ => 0%nat) "5" "1" 1%nat _ _ _);
    [vm_compute; reflexivity | discriminate | vm_compute; reflexivity].
Defined.

Lemma heap_within_load (a : App) (p : Playlist) :
  heap_within 100 a -> heap_within 100 (_load_playlist_tracks a p None).
Proof.
  intros Hw. unfold heap_within in *.
  destruct (cache_get (tracks_cache a) (playlist_key p)) as [l0|] eqn:Hget.
  - destruct (load_hit a p None l0 Hget) as (_ & Hh & _). by rewrite Hh.
  - destruct (fetch_tracks (music_library (env a)) p None)
      as [[e|fetched] made] eqn:Hf.
    + destruct (load_failed a p None e made Hget Hf) as (_ & Hh & _).
      by rewrite Hh.
    + destruct (load_fetched a p None fetched made Hget Hf) as (_ & Hh & _).
      rewrite Hh. apply Forall_app. split; [done|].
      apply Forall_singleton. unfold fetch_tracks in Hf.
      destruct (chosen_limit_default (playlist_count p)) as [Hc | Hc];
        rewrite Hc in Hf; apply fetch_length in Hf; lia.
Qed.

Lemma heap_within_shuffle (a : App) (r : nat -> nat) :
  heap_within 100 a -> heap_within 100 (shuffle_current a r).
Proof.
  unfold heap_within. simpl. intros Hw.
  destruct (heap a !! current_playlist a) as [tracks|] eqn:Hl.
  - apply Forall_insert; [done|].
    unfold playlist_of. rewrite (deref_lookup _ _ _ Hl), shuffle_length.
    by eapply (Forall_lookup_1 _ _ _ _ Hw).
  - rewrite list_insert_ge; [done|]. by apply lookup_ge_None.
Qed.

(** X7. However large the playlists of the server are and whatever is
    pressed, the current playlist never holds more than 100 tracks, and
    neither does any list kept in the cache. *)
Theorem playlist_never_exceeds_100 (e : Env) (evs : list Event) :
  (length (playlist_of (run (init e) evs)) <= 100)%nat
  /\ heap_within 100 (run (init e) evs).
Proof.
  assert (heap_within 100 (run (init e) evs)) as Hw.
  { apply (run_closure (fun a b => heap_within 100 a -> heap_within 100 b));
      try tauto.
    - intros a b (Hh & _). unfold heap_within. by rewrite Hh.
    - apply heap_within_load.
    - apply heap_within_shuffle.
    - unfold heap_within. simpl. repeat constructor. }
  split; [|done]. unfold playlist_of, deref.
  destruct (heap _ !! _) as [tracks|] eqn:Hl; simpl; [|lia].
  by eapply (Forall_lookup_1 _ _ _ _ Hw).
Qed.

Lemma fetch_calls_nonempty (lib : option Library) (p : Playlist)
      (limit : option Z) :
  snd (fetch_tracks lib p limit) <> [].
Proof.
  unfold fetch_tracks, fetch.
  assert (forall cap made0, snd (fetch_items p cap [] made0) <> []) as Hi.
  { intros cap made0. rewrite fetch_items_take. simpl.
    intros H. by apply app_eq_nil in H as [_ H]. }
  destruct (select_strategy _ _ _), lib as [l|]; try apply Hi.
  - unfold fetch_recent.
    destruct (recentlyAdded l _) as [[]|?];
      [destruct (search_sorted l _)| |]; try apply Hi; done.
  - unfold fetch_library.
    destruct (search l _); [destruct (library_all l)|]; try apply Hi; done.
Qed.

(** X8. A playlist without a [ratingKey] is never cached: loading it leaves
    the cache as it is, and every load of it goes to the server. *)
Theorem keyless_playlist_never_cached (app : App) (p : Playlist)
        (limit : option Z) :
  playlist_ratingKey p = None ->
  tracks_cache (_load_playlist_tracks app p limit) = tracks_cache app
  /\ snd (fetch_tracks (music_library (env app)) p limit) <> []
  /\ exists shown,
      calls (_load_playlist_tracks app p limit)
      = calls app ++ snd (fetch_tracks (music_library (env app)) p limit)
        ++ shown.
Proof.
  intros Hk. unfold _load_playlist_tracks, playlist_key. rewrite Hk. simpl.
  split; [|split; [apply fetch_calls_nonempty|]].
  - destruct (fetch_tracks _ p limit) as [[e|fetched] made]; [done|].
    unfold _update_playlist_display. by destruct (display_lines _ _).
  - destruct (fetch_tracks _ p limit) as [[e|fetched] made]; simpl.
    + exists []. by rewrite app_nil_r.
    + unfold _update_playlist_display.
      destruct (display_lines _ _) as [track_lines shown]. simpl.
      exists shown. by rewrite app_assoc.
Qed.

Lemma keyless_playlist_never_cached_witness :
  tracks_cache
    (_load_playlist_tracks Sample.small_loaded Scene.keyless_playlist None)
  = tracks_cache Sample.small_loaded.
Proof.
  exact (proj1 (keyless_playlist_never_cached Sample.small_loaded
                  Scene.keyless_playlist None eq_refl)).
Defined.

(** ** Sessions and the player *)

Lemma load_player (a : App) (p : Playlist) (limit : option Z) :
  player (_load_playlist_tracks a p limit) = player a
  /\ env (_load_playlist_tracks a p limit) = env a.
Proof.
  destruct (cache_get (tracks_cache a) (playlist_key p)) as [l0|] eqn:Hget.
  - by destruct (load_hit a p limit l0 Hget) as (? & _ & _ & _ & _ & ? & _).
  - destruct (fetch_tracks (music_library (env a)) p limit)
      as [[e|fetched] made] eqn:Hf.
    + by destruct (load_failed a p limit e made Hget Hf)
        as (? & _ & _ & _ & _ & ? & _).
    + by destruct (load_fetched a p limit fetched made Hget Hf)
        as (? & _ & _ & _ & _ & ? & _).
Qed.

(** What [_play_track] does to the player: it starts the track, or it
    leaves process, track and flag as they were. *)
Lemma play_track_player (a : App) (track : Track) :
  env (_play_track a track) = env a
  /\ ((exists url, track_stream_url track = Return (Some url)
                   /\ Py.truthy url = true
                   /\ player_found (env a) = true
                   /\ can_start (env a) = true
                   /\ current_track (player (_play_track a track)) = Some track
                   /\ is_playing (player (_play_track a track)) = true
                   /\ current_process (player (_play_track a track)) = Some url)
      \/ (current_track (player (_play_track a track))
          = current_track (player a)
          /\ is_playing (player (_play_track a track)) = is_playing (player a)
          /\ current_process (player (_play_track a track))
             = current_process (player a))).
Proof.
  unfold _play_track.
  destruct (track_stream_url track) as [e|[url|]] eqn:Hu;
    try (split; [done | by right]).
  destruct (Py.truthy url) eqn:Ht; [|split; [done | by right]].
  destruct (_get_artist_name _ track) as [artist made]. cbn.
  destruct (player_found (env a)) eqn:Hp; cbn;
    [destruct (can_start (env a)) eqn:Hs; cbn|].
  - split; [done|]. left. by exists url.
  - split; [done|]. by right.
  - split; [done|]. by right.
Qed.

(** The handlers are built from steps that leave player and environment
    alone, [_play_track], the pause toggle and the stop of
    [on_list_view_selected]. *)
Lemma step_player_closure (R : App -> App -> Prop) :
  (forall a b c, R a b -> R b c -> R a c) ->
  (forall a b, player b = player a -> env b = env a -> R a b) ->
  (forall a track, R a (_play_track a track)) ->
  (forall a p, is_Some (current_process p) ->
               player a = p ->
               R a (set_player a
                      {| current_track := current_track p;
                         is_playing := negb (is_playing p);
                         current_process := current_process p;
                         now_playing := now_playing p |})) ->
  (forall a p, player a = p ->
               R a (set_player a
                      {| current_track := current_track p;
                         is_playing := false; current_process := None;
                         now_playing := now_playing p |})) ->
  forall app ev, R app (step app ev).
Proof.
  intros Htrans Hsame Hplay Htoggle Hstop.
  assert (forall a i, R a (play_at a i)) as Hat.
  { intros a i. unfold play_at. destruct (index _ i); [apply Hplay|].
    by apply Hsame. }
  assert (forall a p, R a (_load_playlist_tracks a p None)) as Hload.
  { intros a p. apply Hsame; apply load_player. }
  assert (forall a, R a (play_at (set_index a 0) 0)) as Hfirst.
  { intros a. eapply Htrans; [|apply Hat]. by apply Hsame. }
  intros app [p|p| |r| | |r]; simpl.
  - by apply Hsame.
  - unfold on_list_view_selected.
    eapply Htrans; [|apply Hload].
    destruct (current_process (player (set_highlighted app (Some p))));
      [destruct (can_terminate _)|].
    + apply (Htrans _ (set_highlighted app (Some p))); [by apply Hsame|].
      by apply Hstop.
    + by apply Hsame.
    + by apply Hsame.
  - unfold action_load_playlist.
    destruct (_highlighted_playlist app) as [p|]; [|by apply Hsame].
    assert (R app (test_highlighted app p)) as Htest by (by apply Hsame).
    destruct (playlist_bool p); [done|].
    eapply Htrans; [apply Htest | apply Hload].
  - unfold action_play_pause.
    destruct (current_process (player app)) eqn:Hp.
    { destruct (can_signal (env app)); [|by apply Hsame].
      pose proof (Htoggle app (player app)) as H. rewrite Hp in H.
      apply H; eauto. }
    destruct (has_tracks app); [apply Hfirst|].
    destruct (_highlighted_playlist app) as [p|]; [|by apply Hsame].
    assert (R app (test_highlighted app p)) as Htest by (by apply Hsame).
    destruct (playlist_bool p) as [e|[|]]; [done| |done].
    eapply Htrans; [apply Htest|].
    eapply Htrans; [apply (Hload (test_highlighted app p) p)|].
    destruct (has_tracks _); [|by apply Hsame].
    destruct (_ >? 50); [|apply Hfirst].
    eapply Htrans; [|apply Hfirst]. by apply Hsame.
  - unfold action_next. destruct (_ && _); [|by apply Hsame].
    eapply Htrans; [|apply Hat]. by apply Hsame.
  - unfold action_previous. destruct (_ && _); [|by apply Hsame].
    eapply Htrans; [|apply Hat]. by apply Hsame.
  - unfold action_random. destruct (has_tracks app); [|by apply Hsame].
    eapply Htrans; [|apply Hfirst]. by apply Hsame.
Qed.

Lemma player_ok_play (a : App) (track : Track) :
  player_ok a -> player_ok (_play_track a track).
Proof.
  intros [H1 H2].
  destruct (play_track_player a track)
    as [_ [(url & _ & _ & _ & _ & Ht & Hi & Hp) | (Ht & Hi & Hp)]];
    unfold player_ok; rewrite Ht, Hi, Hp; eauto.
Qed.

(** X9. In every session a track is marked as playing only while a player
    process is registered, and a registered process always belongs to a
    track that was started. *)
Theorem playing_needs_a_process (e : Env) (evs : list Event) :
  player_ok (run (init e) evs).
Proof.
  assert (forall app ev, player_ok app -> player_ok (step app ev)) as Hstep.
  { apply (step_player_closure (fun a b => player_ok a -> player_ok b));
      try tauto.
    - intros a b Hp _. unfold player_ok. by rewrite Hp.
    - apply player_ok_play.
    - intros a p Hsome <- [H1 H2]. split; simpl; eauto.
    - intros a p <- _. split; simpl; [done | intros [? ?]; done]. }
  assert (forall app, player_ok app -> player_ok (run app evs)) as Hrun.
  { induction evs as [|ev evs IH]; intros app Hok; [done|].
    apply IH. by apply Hstep. }
  apply Hrun. split; simpl; [done | intros [? ?]; done].
Qed.

(** X10. When ffplay cannot be found, no session ever registers a player
    process or marks a track as playing. *)
Theorem no_player_no_process (e : Env) (evs : list Event) :
  player_found e = false ->
  current_process (player (run (init e) evs)) = None
  /\ is_playing (player (run (init e) evs)) = false
  /\ current_track (player (run (init e) evs)) = None.
Proof.
  intros He.
  set (quiet := fun a : App =>
                  env a = e /\ current_process (player a) = None
                  /\ is_playing (player a) = false
                  /\ current_track (player a) = None).
  assert (forall app ev, quiet app -> quiet (step app ev)) as Hstep.
  { apply (step_player_closure (fun a b => quiet a -> quiet b)); try tauto.
    - intros a b Hp Henv. unfold quiet. by rewrite Hp, Henv.
    - intros a track (Henv & Hp & Hi & Ht).
      destruct (play_track_player a track)
        as [Henv' [(url & _ & _ & Hf & _) | (Ht' & Hi' & Hp')]].
      + rewrite Henv in Hf. congruence.
      + unfold quiet. by rewrite Henv', Ht', Hi', Hp'.
    - intros a p [u Hu] <- (_ & Hp & _). congruence.
    - intros a p <- (Henv & _ & _ & Ht). by repeat split. }
  assert (forall app, quiet app -> quiet (run app evs)) as Hrun.
  { induction evs as [|ev evs IH]; intros app Hq; [done|].
    apply IH. by apply Hstep. }
  by destruct (Hrun (init e)) as (_ & ? & ? & ?).
Qed.

Lemma no_player_no_process_witness :
  current_process
    (player (run (init Scene.no_player)
                 [Selected Sample.two_tracks; PlayPause (fun _ => 0%nat); Next]))
  = None.
Proof.
  exact (proj1 (no_player_no_process
                  Scene.no_player
                  [Selected Sample.two_tracks; PlayPause (fun _ => 0%nat); Next]
                  eq_refl)).
Defined.

(** X11. Selecting a playlist in the sidebar ends with no player process
    registered, whether the load hits the cache, fetches or fails,
    provided the running player can be terminated (or none is running);
    when [terminate()] raises, the player is left exactly as it was.
    Loading the highlighted playlist with Enter never touches the
    player. *)
Theorem selection_stops_player (app : App) (p : Playlist) :
  (current_process (player app) = None \/ can_terminate (env app) = true ->
   current_process (player (on_list_view_selected app p)) = None
   /\ (is_Some (current_process (player app)) ->
       is_playing (player (on_list_view_selected app p)) = false))
  /\ (is_Some (current_process (player app)) ->
      can_terminate (env app) = false ->
      player (on_list_view_selected app p) = player app)
  /\ player (action_load_playlist app) = player app.
Proof.
  unfold on_list_view_selected, action_load_playlist.
  split; [|split].
  - intros Hc. rewrite (proj1 (load_player _ p None)). simpl.
    destruct (current_process (player app)) as [u|] eqn:Hp; [|by split].
    destruct Hc as [Hc|Hc]; [done|]. rewrite Hc. simpl.
    split; [done|]. by intros _.
  - intros [u Hu] Hc. rewrite (proj1 (load_player _ p None)). simpl.
    by rewrite Hu, Hc.
  - destruct (_highlighted_playlist app) as [q|]; [|done].
    destruct (playlist_bool q); [done|].
    apply (load_player (test_highlighted app q)).
Qed.



(** X13. Inside the list, [action_next] followed by [action_previous] brings
    the cursor back, and so does [action_previous] followed by
    [action_next]; the list is the same throughout. *)
Theorem next_previous_round_trip (app : App) :
  has_tracks app = true ->
  0 <= current_index app < Z.of_nat (length (playlist_of app)) ->
  (current_index app < Z.of_nat (length (playlist_of app)) - 1 ->
   current_index (action_previous (action_next app)) = current_index app
   /\ playlist_of (action_previous (action_next app)) = playlist_of app)
  /\ (0 < current_index app ->
      current_index (action_next (action_previous app)) = current_index app
      /\ playlist_of (action_next (action_previous app)) = playlist_of app).
Proof.
  intros Ht Hr. split; intros Hi.
  - destruct (action_next_spec app) as [(_ & _ & Hn & Hp) | [[? | ?] _]];
      [|congruence|lia].
    destruct (action_previous_spec (action_next app))
      as [(_ & _ & Hn' & Hp') | [[Hf | ?] _]].
    + rewrite Hn', Hp', Hn, Hp. split; [lia | done].
    + apply has_tracks_length in Ht. unfold has_tracks in Hf, Ht.
      rewrite Hp in Hf. destruct (playlist_of app); [simpl in Ht; lia | done].
    + lia.
  - destruct (action_previous_spec app) as [(_ & _ & Hn & Hp) | [[? | ?] _]];
      [|congruence|lia].
    destruct (action_next_spec (action_previous app))
      as [(_ & _ & Hn' & Hp') | [[Hf | ?] _]].
    + rewrite Hn', Hp', Hn, Hp. split; [lia | done].
    + apply has_tracks_length in Ht. unfold has_tracks in Hf, Ht.
      rewrite Hp in Hf. destruct (playlist_of app); [simpl in Ht; lia | done].
    + rewrite Hp, Hn in *. lia.
Qed.

Lemma next_previous_round_trip_witness :
  current_index (action_previous (action_next Scene.three_playing)) = 0.
Proof.
  refine (proj1 (proj1 (next_previous_round_trip Scene.three_playing
                          eq_refl _) _));
    vm_compute; (split; congruence) || reflexivity.
Defined.

Lemma index_lookup {A} (l : list A) (i : Z) :
  0 <= i -> index l i = l !! Z.to_nat i.
Proof. intros Hi. unfold index. by destruct (Z.leb_spec 0 i); [|lia]. Qed.

(** X14. [action_next] moves the cursor first and then tries to play the
    track under it: when the track has a stream URL, ffplay is found and
    the process starts, that track is the one playing; when the track
    cannot be played, the cursor has moved all the same and process,
    track and flag are as they were. *)
Theorem next_moves_then_plays (app : App) (t : Track) :
  0 <= current_index app < Z.of_nat (length (playlist_of app)) - 1 ->
  playlist_of app !! Z.to_nat (current_index app + 1) = Some t ->
  current_index (action_next app) = current_index app + 1
  /\ (forall url,
         track_stream_url t = Return (Some url) ->
         Py.truthy url = true ->
         player_found (env app) = true ->
         can_start (env app) = true ->
         current_track (player (action_next app)) = Some t
         /\ is_playing (player (action_next app)) = true
         /\ current_process (player (action_next app)) = Some url)
  /\ ((forall url, track_stream_url t = Return (Some url) ->
                   Py.truthy url = false \/ player_found (env app) = false
                   \/ can_start (env app) = false) ->
      current_track (player (action_next app)) = current_track (player app)
      /\ is_playing (player (action_next app)) = is_playing (player app)
      /\ current_process (player (action_next app))
         = current_process (player app)).
Proof.
  intros Hr Ht.
  assert (has_tracks app = true) as Hh by (apply has_tracks_length; lia).
  assert (action_next app
          = _play_track (set_index app (current_index app + 1)) t) as ->.
  { unfold action_next. rewrite Hh. simpl.
    destruct (Z.ltb_spec (current_index app)
                (Z.of_nat (length (playlist_of app)) - 1)); [|lia].
    unfold play_at. simpl.
    change (playlist_of (set_index app (current_index app + 1)))
      with (playlist_of app).
    by rewrite index_lookup, Ht by lia. }
  set (a := set_index app (current_index app + 1)).
  split; [|split].
  - by destruct (play_track_frame a t) as (_ & _ & _ & _ & -> & _).
  - intros url Hu Hy Hf Hs.
    unfold _play_track. rewrite Hu, Hy.
    destruct (_get_artist_name _ t) as [artist made]. cbn.
    by rewrite Hf, Hs.
  - intros Hno.
    destruct (play_track_player a t)
      as [_ [(url & Hu & Hy & Hf & Hs & _) | H]]; [|done].
    subst a. simpl in Hf, Hs. destruct (Hno url Hu) as [|[|]]; congruence.
Qed.

Lemma next_moves_then_plays_witness :
  current_index (action_next Scene.three_playing) = 0 + 1
  /\ current_track (player (action_next Scene.three_playing))
     = Some (Sample.titled_track 2 "B").
Proof.
  pose proof (next_moves_then_plays Scene.three_playing
                (Sample.titled_track 2 "B")) as H.
  destruct H as (H1 & H2 & _);
    [split; by vm_compute | vm_compute; reflexivity |].
  split; [exact H1|].
  exact (proj1 (H2 "http://plex/song" eq_refl eq_refl eq_refl eq_refl)).
Defined.

(** ** More on artist resolution *)

Lemma append_cons (c : ascii) (s t : string) :
  String.append (String c s) t = String c (String.append s t).
Proof. reflexivity. Qed.

Lemma append_assoc (s1 s2 s3 : string) :
  String.append (String.append s1 s2) s3
  = String.append s1 (String.append s2 s3).
Proof.
  induction s1 as [|c s1 IH]; [done|]. by rewrite !append_cons, IH.
Qed.

Lemma rev_app_append (s1 s2 : string) :
  String.rev_app s1 s2 = String.append (String.rev s1) s2.
Proof.
  unfold String.rev. revert s2.
  induction s1 as [|c s1 IH]; intros s2; [done|].
  cbn [String.rev_app].
  rewrite (IH (String c s2)), (IH (String c "")), append_assoc. done.
Qed.

Lemma rev_app_snoc (s1 s2 acc : string) :
  String.rev_app (String.append s1 s2) acc
  = String.rev_app s2 (String.rev_app s1 acc).
Proof.
  revert acc. induction s1 as [|c s1 IH]; intros acc; [done|].
  rewrite append_cons. cbn [String.rev_app]. apply IH.
Qed.

Lemma rev_cons (c : ascii) (s : string) :
  String.rev (String c s) = String.append (String.rev s) (String c "").
Proof. unfold String.rev at 1. simpl. apply rev_app_append. Qed.

Lemma rev_snoc (c : ascii) (s : string) :
  String.rev (String.append s (String c "")) = String c (String.rev s).
Proof. unfold String.rev. by rewrite rev_app_snoc. Qed.

Lemma rev_involutive (s : string) : String.rev (String.rev s) = s.
Proof.
  induction s as [|c s IH]; [done|]. by rewrite rev_cons, rev_snoc, IH.
Qed.

Lemma lstrip_idempotent (s : string) : Py.lstrip (Py.lstrip s) = Py.lstrip s.
Proof.
  induction s as [|c s IH]; simpl; [done|].
  destruct (Py.isspace c) eqn:Hc; [done|]. simpl. by rewrite Hc.
Qed.

Lemma lstrip_snoc (u : string) (c : ascii) :
  Py.isspace c = false ->
  Py.lstrip (String.append u (String c ""))
  = String.append (Py.lstrip u) (String c "").
Proof.
  intros Hc. induction u as [|d u IH].
  { change (Py.lstrip (String c "") = String c "").
    cbn [Py.lstrip]. by rewrite Hc. }
  rewrite append_cons. cbn [Py.lstrip].
  by destruct (Py.isspace d).
Qed.

Lemma rstrip_cons (c : ascii) (t : string) :
  Py.isspace c = false ->
  Py.rstrip (String c t) = String c (Py.rstrip t).
Proof.
  intros Hc. unfold Py.rstrip.
  by rewrite rev_cons, lstrip_snoc, rev_snoc.
Qed.

Lemma rstrip_idempotent (s : string) : Py.rstrip (Py.rstrip s) = Py.rstrip s.
Proof. unfold Py.rstrip. by rewrite rev_involutive, lstrip_idempotent. Qed.

(** Stripping twice is stripping once. *)
Lemma strip_idempotent (s : string) : Py.strip (Py.strip s) = Py.strip s.
Proof.
  unfold Py.strip.
  assert (Py.lstrip (Py.rstrip (Py.lstrip s)) = Py.rstrip (Py.lstrip s)) as ->.
  { induction s as [|c s IH]; [done|]. simpl.
    destruct (Py.isspace c) eqn:Hc; [done|].
    rewrite rstrip_cons by done. simpl. by rewrite Hc. }
  apply rstrip_idempotent.
Qed.

Lemma first_yield_elem (ys : list (option string)) (v : string) :
  first_yield ys = Some v -> Some v ∈ ys.
Proof.
  induction ys as [|y ys IH]; simpl; [done|].
  destruct (Py.truthy_opt y).
  - intros ->. apply list_elem_of_here.
  - intros H. apply list_elem_of_further. by apply IH.
Qed.

(** Whatever a tier yields has been stripped. *)
Lemma tier_yields_stripped (plex : option PlexServer) (track : Track)
      (v : string) :
  Some v ∈ tier_yields plex track -> exists x, v = Py.strip x.
Proof.
  assert (forall attr, Some v = structured attr None ->
                       exists x, v = Py.strip x) as Hs.
  { intros [| |[s|]]; simpl; try done.
    destruct (Py.truthy s); [|done]. intros [= ->]. eauto. }
  assert (forall data, Some v = match elem_text (find "grandparentTitle" data)
                                with Some t => Some (Py.strip t) | None => None
                                end -> exists x, v = Py.strip x) as Hd.
  { intros data. destruct (elem_text _); [|done]. intros [= ->]. eauto. }
  unfold tier_yields, tiers. cbn [map]. rewrite !elem_of_cons, elem_of_nil.
  intros [H|[H|[H|[H|[H|[H|[]]]]]]].
  - by apply (Hs (grandparentTitle track)).
  - unfold method2 in H. destruct (track_data track) as [[|e data]|]; try done.
    cbv beta iota delta [negb Py.truthy_opt] in H.
    rewrite xml_lookup_first_candidate in H.
    destruct (first_candidate _); [|done]. injection H as ->. eauto.
  - by apply (Hs (originalTitle track)).
  - by apply (Hs (parentTitle track)).
  - unfold method5 in H. simpl in H.
    destruct (track_ratingKey track); [|done].
    destruct plex as [server|]; [|done].
    destruct (fetchItem server _) as [e|reloaded]; [done|]. simpl in H.
    unfold from_reloaded in H.
    destruct (grandparentTitle reloaded) as [| |[s|]]; try done;
      try (destruct (Py.truthy s); [injection H as ->; eauto|]);
      (destruct (track_data reloaded) as [[|e data]|]; try done;
       by apply (Hd (e :: data))).
  - unfold method6 in H. simpl in H.
    destruct (track_artist track) as [e|[[[s|]|s]|]]; try done; simpl in H;
      (destruct (Py.truthy s); [injection H as ->; eauto | done]).
Qed.

(** X15. The artist text is always trimmed: stripping it again changes
    nothing, whichever tier it comes from. *)
Theorem artist_is_trimmed (plex : option PlexServer) (track : Track) :
  Py.strip (fst (_get_artist_name plex track))
  = fst (_get_artist_name plex track).
Proof.
  rewrite get_artist_name_first_yield.
  destruct (first_yield (tier_yields plex track)) as [v|] eqn:Hy; [|done].
  apply first_yield_elem, tier_yields_stripped in Hy as [x ->].
  apply strip_idempotent.
Qed.

(** One resolution asks the server at most twice: at most one reload of
    the track, then at most one artist lookup. *)
Lemma resolution_calls (plex : option PlexServer) (track : Track) :
  exists reload lookup,
    snd (_get_artist_name plex track) = reload ++ lookup
    /\ (reload = []
        \/ exists key, track_ratingKey track = Some key
                       /\ reload = [CallFetchItem key])
    /\ (lookup = [] \/ lookup = [CallArtist (track_ratingKey track)]).
Proof.
  unfold _get_artist_name, artist_tiers.
  destruct (method5 plex track _) as [a5 c5] eqn:H5.
  destruct (method6 track a5) as [a6 c6] eqn:H6. simpl.
  exists c5, c6. split; [done|]. split.
  - unfold method5 in H5.
    destruct (negb _); [|injection H5 as <- <-; by left].
    destruct (track_ratingKey track) as [key|];
      [|injection H5 as <- <-; by left].
    destruct plex as [server|]; [|injection H5 as <- <-; by left].
    destruct (fetchItem server key); injection H5 as <- <-; right; eauto.
  - unfold method6 in H6.
    destruct (negb _); injection H6 as <- <-; auto.
Qed.

Lemma display_lines_bounds (plex : option PlexServer) (tracks : list Track) :
  length (fst (display_lines plex tracks)) = length tracks
  /\ (length (snd (display_lines plex tracks)) <= 2 * length tracks)%nat.
Proof.
  induction tracks as [|t tracks [IH1 IH2]]; simpl; [done|].
  destruct (resolution_calls plex t) as (c5 & c6 & Hc & H5 & H6).
  destruct (_get_artist_name plex t) as [artist made].
  destruct (display_lines plex tracks) as [track_lines made']. simpl in *.
  split; [lia|]. rewrite length_app, Hc, length_app.
  assert (length c5 <= 1)%nat
    by (destruct H5 as [-> | (k & _ & ->)]; simpl; lia).
  assert (length c6 <= 1)%nat by (destruct H6 as [-> | ->]; simpl; lia).
  lia.
Qed.

(** X16. Drawing a track list shows at most its first 20 tracks, asks the
    server at most twice per shown track (never for a fetch), and
    leaves lists, cache, cursor and player untouched. *)
Theorem draw_is_bounded (app : App) (tracks : list Track) (total : option Z) :
  exists track_lines made,
    main_content (_update_playlist_display app tracks total)
    = TrackLines (length tracks) total track_lines
    /\ length track_lines = Nat.min 20 (length tracks)
    /\ calls (_update_playlist_display app tracks total) = calls app ++ made
    /\ (length made <= 40)%nat
    /\ Forall (fun c => is_fetch_call c = false) made
    /\ same_store app (_update_playlist_display app tracks total)
    /\ current_index (_update_playlist_display app tracks total)
       = current_index app
    /\ player (_update_playlist_display app tracks total) = player app.
Proof.
  unfold _update_playlist_display.
  pose proof (display_lines_bounds (plex (env app)) (take 20 tracks)) as [H1 H2].
  pose proof (display_lines_calls (plex (env app)) (take 20 tracks)) as H3.
  destruct (display_lines _ _) as [track_lines made]. simpl in *.
  exists track_lines, made. rewrite length_take in H1, H2.
  repeat split; try done; lia.
Qed.

(** ** Start-up *)

(** Distinct rating keys never share an id: [str] is injective. *)
Lemma str_inj (a b : Z) : PyInt.str a = PyInt.str b -> a = b.
Proof.
  assert (forall z, DecimalString.NilZero.int_of_string (PyInt.str z)
                    = Some (Z.to_int z)) as Hisi.
  { intros z. apply DecimalString.NilZero.isi; destruct z; simpl;
      try discriminate; intros [= H];
      by apply DecimalPos.Unsigned.to_uint_nonnil in H. }
  intros H. apply DecimalZ.to_int_inj.
  pose proof (Hisi a) as Ha. rewrite H, Hisi in Ha. by injection Ha.
Qed.

Lemma dict_get_set {V} (d : dict V) (k k' : string) (v : V) :
  dict_get (dict_set d k v) k'
  = if String.eqb k k' then Some v else dict_get d k'.
Proof.
  induction d as [|[k0 v0] d IH]; simpl; [done|].
  destruct (String.eqb_spec k0 k) as [->|Hk0]; simpl.
  - by destruct (String.eqb_spec k k').
  - rewrite IH.
    destruct (String.eqb_spec k0 k') as [->|]; [|done].
    by destruct (String.eqb_spec k k').
Qed.

Lemma add_playlist_kept (sb : Sidebar) (entry : PlaylistEntry) :
  add_playlist sb entry
  = match kept_key entry with
    | Some k =>
        {| playlists := playlists sb ++ [entry_playlist entry];
           playlist_cache :=
             dict_set (playlist_cache sb) (PyInt.str k)
                      (cached_title entry, entry_playlist entry) |}
    | None => sb
    end.
Proof.
  unfold add_playlist, kept_key, cached_title.
  destruct (entry_title entry) as [| |v];
    destruct (entry_ratingKey entry) as [| |[k|]]; try done;
    by destruct (k =? 0).
Qed.

Lemma add_playlist_indexed (seen : list PlaylistEntry) (sb : Sidebar)
      (entry : PlaylistEntry) :
  sidebar_indexed seen sb ->
  sidebar_indexed (seen ++ [entry]) (add_playlist sb entry).
Proof.
  intros (H1 & H2 & H3). rewrite add_playlist_kept.
  unfold sidebar_indexed. rewrite List.filter_app, map_app. simpl.
  unfold kept at 2. destruct (kept_key entry) as [k|] eqn:Hk; simpl.
  - split; [by rewrite H1|]. split.
    + intros key title p. rewrite dict_get_set.
      destruct (String.eqb_spec (PyInt.str k) key) as [<-|_].
      * intros [= <- <-]. exists entry, k. repeat split; try done.
        apply elem_of_app. right. apply list_elem_of_here.
      * intros H. destruct (H2 _ _ _ H) as (e0 & k0 & ? & ? & ? & ? & ?).
        exists e0, k0. repeat split; try done. apply elem_of_app. by left.
    + intros e0 k0 Hin Hk0. rewrite dict_get_set.
      destruct (String.eqb_spec (PyInt.str k) (PyInt.str k0)) as [He|Hne].
      * apply str_inj in He as <-. exists entry. repeat split; try done.
        apply elem_of_app. right. apply list_elem_of_here.
      * apply elem_of_app in Hin as [Hin|Hin].
        -- destruct (H3 e0 k0 Hin Hk0) as (e' & ? & ? & ?).
           exists e'. repeat split; try done. apply elem_of_app. by left.
        -- apply list_elem_of_singleton in Hin as ->.
           rewrite Hk in Hk0. injection Hk0 as ->. done.
  - rewrite app_nil_r. split; [done|]. split.
    + intros key title p H.
      destruct (H2 _ _ _ H) as (e0 & k0 & ? & ? & ? & ? & ?).
      exists e0, k0. repeat split; try done. apply elem_of_app. by left.
    + intros e0 k0 [Hin|Hin]%elem_of_app Hk0.
      * destruct (H3 e0 k0 Hin Hk0) as (e' & ? & ? & ?).
        exists e'. repeat split; try done. apply elem_of_app. by left.
      * apply list_elem_of_singleton in Hin as ->. congruence.
Qed.

Lemma fold_add_playlist_indexed (ps seen : list PlaylistEntry) (sb : Sidebar) :
  sidebar_indexed seen sb ->
  sidebar_indexed (seen ++ ps) (fold_left add_playlist ps sb).
Proof.
  revert seen sb. induction ps as [|entry ps IH]; intros seen sb H; simpl.
  - by rewrite app_nil_r.
  - replace (seen ++ entry :: ps) with ((seen ++ [entry]) ++ ps)
      by (by rewrite <- app_assoc).
    by apply IH, add_playlist_indexed.
Qed.

(** X17. When [plex.playlists()] raises, [_load_playlists] leaves the
    sidebar as it was.  Otherwise [playlists] holds, in the server's
    order, the playlists whose two reads succeed and whose rating key is
    not 0; every [playlist_cache] entry is filed under [str] of the key
    read from such a playlist, with the title read, or "Playlist" for a
    playlist without title; and a playlist whose key no other kept
    playlist shares is found under its key. *)
Theorem sidebar_is_indexed (sb : Sidebar)
        (answer : Outcome (list PlaylistEntry)) :
  (forall e, answer = Raise e -> _load_playlists sb answer = sb)
  /\ (forall ps, answer = Return ps ->
        sidebar_indexed ps (_load_playlists sb answer)
        /\ (forall entry k,
              entry ∈ ps -> kept_key entry = Some k ->
              (forall entry', entry' ∈ ps -> kept_key entry' = Some k ->
                              entry' = entry) ->
              dict_get (playlist_cache (_load_playlists sb answer))
                       (PyInt.str k)
              = Some (cached_title entry, entry_playlist entry))).
Proof.
  split; [by intros e ->|]. intros ps ->. simpl.
  assert (sidebar_indexed ps
            (fold_left add_playlist ps
                       {| playlists := []; playlist_cache := [] |})) as H.
  { apply (fold_add_playlist_indexed ps []).
    split; [done|]. split; [done|]. by intros entry k ?%elem_of_nil. }
  split; [done|]. intros entry k Hin Hk Huniq.
  destruct H as (_ & _ & H3).
  destruct (H3 entry k Hin Hk) as (entry' & Hin' & Hk' & ->).
  by rewrite (Huniq entry' Hin' Hk').
Qed.

Lemma first_artist_section_found (pre post : list LibrarySection)
      (s : LibrarySection) (music_library : option Library) :
  Forall not_artist pre ->
  section_type s = "artist" ->
  first_artist_section (pre ++ s :: post) music_library
  = Some (section_library s).
Proof.
  intros Hpre Hs. induction Hpre as [|x pre Hx _ IH]; simpl.
  - by rewrite Hs.
  - by destruct (String.eqb_spec (section_type x) "artist").
Qed.

Lemma first_artist_section_none (sections : list LibrarySection)
      (music_library : option Library) :
  Forall not_artist sections ->
  first_artist_section sections music_library = music_library.
Proof.
  induction 1 as [|x l Hx _ IH]; simpl; [done|].
  by destruct (String.eqb_spec (section_type x) "artist").
Qed.

(** X18. [_connect_to_plex] keeps both fields when the connection fails,
    keeps the server also when the sections cannot be listed, and takes
    as music library the first section of type 'artist', leaving the
    field as it was when there is none. *)
Theorem connect_takes_first_artist_section (plex : option PlexServer)
        (music_library : option Library) (answer : Outcome Connection) :
  (forall e, answer = Raise e ->
             _connect_to_plex plex music_library answer
             = (plex, music_library))
  /\ (forall conn, answer = Return conn ->
        fst (_connect_to_plex plex music_library answer)
        = Some (conn_server conn)
        /\ (forall e, conn_sections conn = Raise e ->
                      snd (_connect_to_plex plex music_library answer)
                      = music_library)
        /\ (forall pre s post,
               conn_sections conn = Return (pre ++ s :: post) ->
               Forall not_artist pre ->
               section_type s = "artist" ->
               snd (_connect_to_plex plex music_library answer)
               = Some (section_library s))
        /\ (forall sections,
               conn_sections conn = Return sections ->
               Forall not_artist sections ->
               snd (_connect_to_plex plex music_library answer)
               = music_library)).
Proof.
  split; [by intros e ->|]. intros conn ->. unfold _connect_to_plex.
  split; [by destruct (conn_sections conn)|].
  split; [by intros e ->|].
  split.
  - intros pre s post -> Hpre Hs. simpl.
    by apply first_artist_section_found.
  - intros sections -> Hs. simpl. by apply first_artist_section_none.
Qed.

(** ** Playing a track picked from a list *)

Lemma find_track_first (pre post : list Track) (t : Track) (k : Z) :
  Forall (other_key k) pre ->
  track_ratingKey t = Some k ->
  find_track (pre ++ t :: post) (PyInt.str k) = Return (Some t).
Proof.
  intros Hpre Ht. induction Hpre as [|u pre (k' & Hu & Hne) _ IH]; simpl.
  - by rewrite Ht, String.eqb_refl.
  - rewrite Hu.
    destruct (String.eqb_spec (PyInt.str k') (PyInt.str k)) as [He|]; [|done].
    by apply str_inj in He.
Qed.

Lemma find_track_none (all_tracks : list Track) (k : Z) :
  Forall (other_key k) all_tracks ->
  find_track all_tracks (PyInt.str k) = Return None.
Proof.
  induction 1 as [|u l (k' & Hu & Hne) _ IH]; simpl; [done|].
  rewrite Hu.
  destruct (String.eqb_spec (PyInt.str k') (PyInt.str k)) as [He|]; [|done].
  by apply str_inj in He.
Qed.

Lemma find_track_keyless (pre post : list Track) (u : Track) (k : Z) :
  Forall (other_key k) pre ->
  track_ratingKey u = None ->
  find_track (pre ++ u :: post) (PyInt.str k) = Raise AttributeError.
Proof.
  intros Hpre Hu. induction Hpre as [|v pre (k' & Hv & Hne) _ IH]; simpl.
  - by rewrite Hu.
  - rewrite Hv.
    destruct (String.eqb_spec (PyInt.str k') (PyInt.str k)) as [He|]; [|done].
    by apply str_inj in He.
Qed.

(** X19. [_play_track_by_key] plays the first track with the asked rating
    key, looking through the current playlist before the search results,
    and does nothing when there is none; a track without rating key
    met before a match makes it raise.  It changes neither the list
    objects, nor the cache, nor the cursor. *)
Theorem play_by_key_first_match (app : App) (search_results : list Track)
        (k : Z) :
  (forall pre t post,
      playlist_of app ++ search_results = pre ++ t :: post ->
      Forall (other_key k) pre ->
      track_ratingKey t = Some k ->
      _play_track_by_key app search_results (PyInt.str k)
      = Return (_play_track app t))
  /\ (Forall (other_key k) (playlist_of app ++ search_results) ->
      _play_track_by_key app search_results (PyInt.str k) = Return app)
  /\ (forall pre u post,
      playlist_of app ++ search_results = pre ++ u :: post ->
      Forall (other_key k) pre ->
      track_ratingKey u = None ->
      _play_track_by_key app search_results (PyInt.str k)
      = Raise AttributeError)
  /\ (forall app',
      _play_track_by_key app search_results (PyInt.str k) = Return app' ->
      same_store app app' /\ current_index app' = current_index app).
Proof.
  unfold _play_track_by_key. split; [|split; [|split]].
  - intros pre t post -> Hpre Ht. by rewrite find_track_first.
  - intros H. by rewrite find_track_none.
  - intros pre u post -> Hpre Hu. by rewrite find_track_keyless.
  - intros app'. destruct (find_track _ _) as [e|[t|]]; [done| |].
    + intros [= <-].
      by destruct (play_track_frame app t) as (_ & ? & ? & ? & ? & _).
    + by intros [= <-].
Qed.

(** ** Searching *)

Lemma mounted_elem (id : string) (mounted : list string) :
  existsb (String.eqb id) mounted = true <-> id ∈ mounted.
Proof.
  rewrite existsb_exists. split.
  - intros (x & Hin & Heq). apply String.eqb_eq in Heq as <-.
    by apply list_elem_of_In.
  - intros Hin. exists id.
    split; [by apply list_elem_of_In | apply String.eqb_refl].
Qed.

Lemma search_items_cons (plex : option PlexServer) (mounted : list string)
      (t : Track) (rest : list Track) :
  search_items plex mounted (t :: rest)
  = let '(artist, made) := _get_artist_name plex t in
    match track_id t with
    | None => ([], made)
    | Some id =>
        if existsb (String.eqb id) mounted then ([], made)
        else
          let '(listed, made') := search_items plex (id :: mounted) rest in
          ({| item_label :=
                String.append artist (String.append " - " (title_of t));
              item_id := id |} :: listed,
           made ++ made')
    end.
Proof.
  unfold track_id. cbn [search_items].
  destruct (_get_artist_name plex t) as [artist made].
  by destruct (track_ratingKey t).
Qed.

Lemma search_items_calls (plex : option PlexServer) (mounted : list string)
      (results : list Track) :
  Forall (fun c => is_fetch_call c = false)
         (snd (search_items plex mounted results)).
Proof.
  revert mounted. induction results as [|t results IH]; intros mounted;
    [done|].
  rewrite search_items_cons.
  pose proof (get_artist_name_calls plex t) as Hc.
  destruct (_get_artist_name plex t) as [artist made].
  destruct (track_id t) as [id|]; [|done].
  destruct (existsb _ mounted); [done|].
  specialize (IH (id :: mounted)).
  destruct (search_items plex _ results) as [l made'].
  by apply Forall_app.
Qed.

(** The listing follows the results from the first on. *)
Lemma search_items_prefix (plex : option PlexServer) (mounted : list string)
      (results : list Track) :
  exists n,
    map Some (map item_id (fst (search_items plex mounted results)))
    = map track_id (take n results).
Proof.
  revert mounted. induction results as [|t results IH]; intros mounted;
    [by exists 0%nat|].
  rewrite search_items_cons.
  destruct (_get_artist_name plex t) as [artist made].
  destruct (track_id t) as [id|] eqn:Ht; [|by exists 0%nat].
  destruct (existsb _ mounted); [by exists 0%nat|].
  destruct (IH (id :: mounted)) as [n Hn].
  destruct (search_items plex _ results) as [l made'].
  exists (S n). cbn [fst map take] in *. by rewrite Hn, Ht.
Qed.

(** No id is listed twice, and none that was mounted. *)
Lemma search_items_fresh (plex : option PlexServer) (mounted : list string)
      (results : list Track) :
  NoDup (map item_id (fst (search_items plex mounted results)))
  /\ forall id, id ∈ map item_id (fst (search_items plex mounted results)) ->
                id ∉ mounted.
Proof.
  revert mounted. induction results as [|t results IH]; intros mounted.
  { split; [constructor | by intros id ?%elem_of_nil]. }
  rewrite search_items_cons.
  destruct (_get_artist_name plex t) as [artist made].
  destruct (track_id t) as [id|];
    [|split; [constructor | by intros ? ?%elem_of_nil]].
  destruct (existsb _ mounted) eqn:Hm;
    [split; [constructor | by intros ? ?%elem_of_nil]|].
  assert (id ∉ mounted) as Hnew.
  { intros Hin. apply mounted_elem in Hin. by rewrite Hin in Hm. }
  destruct (IH (id :: mounted)) as [Hnd Hfresh].
  destruct (search_items plex _ results) as [l made'].
  cbn [fst map item_id] in *.
  split.
  - constructor; [|done]. intros Hin. apply (Hfresh _ Hin).
    apply list_elem_of_here.
  - intros id' [->|Hin]%elem_of_cons; [done|].
    intros Hin'. apply (Hfresh _ Hin). by apply list_elem_of_further.
Qed.

Lemma track_id_inj (t t' : Track) (id : string) :
  track_id t = Some id -> track_id t' = Some id ->
  track_ratingKey t = track_ratingKey t'.
Proof.
  unfold track_id.
  destruct (track_ratingKey t) as [k|], (track_ratingKey t') as [k'|];
    try done.
  simpl. intros [= <-] [= H]. apply String.app_inj, str_inj in H. by rewrite H.
Qed.

Lemma search_items_full (plex : option PlexServer) (mounted : list string)
      (results : list Track) :
  Forall (fun t => is_Some (track_ratingKey t)) results ->
  NoDup (map track_ratingKey results) ->
  (forall t id, t ∈ results -> track_id t = Some id -> id ∉ mounted) ->
  length (fst (search_items plex mounted results)) = length results.
Proof.
  intros Hkeyed. revert mounted.
  induction Hkeyed as [|t results [key Ht] _ IH]; intros mounted Hnd Hfresh;
    [done|].
  rewrite search_items_cons.
  destruct (_get_artist_name plex t) as [artist made].
  destruct (track_id t) as [id|] eqn:Hid;
    [|unfold track_id in Hid; by rewrite Ht in Hid].
  destruct (existsb _ mounted) eqn:Hm.
  { apply mounted_elem in Hm.
    by destruct (Hfresh t id (list_elem_of_here _ _) Hid). }
  cbn [map] in Hnd. apply NoDup_cons in Hnd as [Hnotin Hnd].
  specialize (IH (id :: mounted) Hnd).
  destruct (search_items plex _ results) as [l made'].
  cbn [fst length] in *. rewrite IH; [done|].
  intros t' id' Hin Hid' [->|Hin']%elem_of_cons.
  - apply Hnotin. rewrite (track_id_inj t t' id Hid Hid').
    by apply list_elem_of_In, in_map, list_elem_of_In.
  - by apply (Hfresh t' id' (list_elem_of_further _ _ _ Hin) Hid').
Qed.

(** A track without rating key, or one whose id is mounted, ends the
    listing. *)
Lemma search_items_stop (plex : option PlexServer) (mounted : list string)
      (pre post : list Track) (u : Track) :
  track_ratingKey u = None
  \/ (exists id, track_id u = Some id /\ id ∈ mounted) ->
  (length (fst (search_items plex mounted (pre ++ u :: post)))
   <= length pre)%nat.
Proof.
  revert mounted. induction pre as [|t pre IH]; intros mounted Hu;
    cbn [app]; rewrite search_items_cons.
  - destruct (_get_artist_name plex u) as [artist made].
    destruct Hu as [Hu|(id & Hid & Hin)].
    + unfold track_id. by rewrite Hu.
    + rewrite Hid. apply mounted_elem in Hin. by rewrite Hin.
  - destruct (_get_artist_name plex t) as [artist made].
    destruct (track_id t) as [id|]; [|simpl; lia].
    destruct (existsb _ mounted); [simpl; lia|].
    specialize (IH (id :: mounted)).
    destruct (search_items plex _ (pre ++ u :: post)) as [l made'].
    cbn [fst length] in *. apply le_n_S, IH.
    destruct Hu as [Hu|(id' & Hid & Hin)]; [by left|].
    right. exists id'. split; [done|]. by apply list_elem_of_further.
Qed.

(** Every listed entry stands for one of the results, under the id made
    from its rating key. *)
Lemma search_items_elem (plex : option PlexServer) (mounted : list string)
      (results : list Track) (item : ListItem) :
  item ∈ fst (search_items plex mounted results) ->
  exists pre t post k,
    results = pre ++ t :: post
    /\ Forall (fun t => is_Some (track_ratingKey t)) pre
    /\ track_ratingKey t = Some k
    /\ item_id item = String.append "track-" (PyInt.str k).
Proof.
  revert mounted. induction results as [|t results IH]; intros mounted;
    [by intros ?%elem_of_nil|].
  rewrite search_items_cons.
  destruct (_get_artist_name plex t) as [artist made].
  unfold track_id.
  destruct (track_ratingKey t) as [key|] eqn:Ht;
    [|by intros ?%elem_of_nil].
  cbn [fmap option_fmap option_map].
  destruct (existsb _ mounted); [by intros ?%elem_of_nil|].
  specialize (IH (String.append "track-" (PyInt.str key) :: mounted)).
  destruct (search_items plex _ results) as [l made']. cbn [fst] in *.
  intros [->|Hin]%elem_of_cons.
  - exists [], t, results, key. by repeat split.
  - destruct (IH Hin) as (pre & t' & post & k & -> & Hpre & Ht' & Hid).
    exists (t :: pre), t', post, k. repeat split; try done.
    constructor; [by rewrite Ht|done].
Qed.

(** X20. A search never touches the list objects, the cache, the cursor
    or the player, and asks the server for artists only.  When the
    search call fails the previous results and listing stay.  When it
    answers, the answer becomes the results in full, while the listing
    follows the results only up to the first track that has no rating
    key or whose id is still mounted, from the previous search or from
    an earlier result: the listing is complete when all results have
    distinct rating keys and none was listed before. *)
Theorem search_replaces_results (app : App) (pane : SearchPane)
        (library_search server_search : Outcome (list Track)) :
  (forall e,
      search_answer (env app) library_search server_search = Raise e ->
      _search_tracks app pane library_search server_search = (app, pane))
  /\ (forall results,
      search_answer (env app) library_search server_search = Return results ->
      search_results (snd (_search_tracks app pane library_search
                                          server_search)) = results
      /\ (exists n,
            map Some
                (map item_id
                     (search_list (snd (_search_tracks app pane library_search
                                                       server_search))))
            = map track_id (take n results))
      /\ NoDup (map item_id
                    (search_list (snd (_search_tracks app pane library_search
                                                      server_search))))
      /\ (forall id,
            id ∈ map item_id
                   (search_list (snd (_search_tracks app pane library_search
                                                     server_search))) ->
            id ∉ map item_id (search_list pane))
      /\ (Forall (fun t => is_Some (track_ratingKey t)) results ->
          NoDup (map track_ratingKey results) ->
          (forall t id, t ∈ results -> track_id t = Some id ->
                        id ∉ map item_id (search_list pane)) ->
          length (search_list (snd (_search_tracks app pane library_search
                                                   server_search)))
          = length results)
      /\ (forall pre u post,
          results = pre ++ u :: post ->
          track_ratingKey u = None
          \/ (exists id, track_id u = Some id
                         /\ id ∈ map item_id (search_list pane)) ->
          (length (search_list (snd (_search_tracks app pane library_search
                                                    server_search)))
           <= length pre)%nat))
  /\ same_store app (fst (_search_tracks app pane library_search
                                         server_search))
  /\ current_index (fst (_search_tracks app pane library_search
                                        server_search)) = current_index app
  /\ player (fst (_search_tracks app pane library_search server_search))
     = player app
  /\ exists made,
      calls (fst (_search_tracks app pane library_search server_search))
      = calls app ++ made
      /\ Forall (fun c => is_fetch_call c = false) made.
Proof.
  unfold _search_tracks.
  destruct (search_answer _ _ _) as [e|results].
  - split; [done|]. split; [done|]. repeat split; try done.
    exists []. by rewrite app_nil_r.
  - set (mounted := map item_id (search_list pane)).
    pose proof (search_items_calls (plex (env app)) mounted results) as Hc.
    pose proof (search_items_prefix (plex (env app)) mounted results) as Hp.
    pose proof (search_items_fresh (plex (env app)) mounted results)
      as [Hnd Hfresh].
    pose proof (search_items_full (plex (env app)) mounted results) as Hfull.
    pose proof (fun pre u post =>
                  search_items_stop (plex (env app)) mounted pre post u)
      as Hstop.
    destruct (search_items _ mounted results) as [l made] eqn:Hs.
    simpl in *.
    split; [done|]. split.
    + intros ? [= <-]. split; [done|]. split; [done|]. split; [done|].
      split; [done|]. split; [done|].
      intros pre u post -> Hu.
      specialize (Hstop pre u post Hu). by rewrite Hs in Hstop.
    + repeat split; try done. by exists made.
Qed.

(** Searching twice for the same tracks: the entries of the first search
    are still mounted when the second one appends, so that its first
    entry is refused and nothing is listed. *)
Example repeated_search_lists_nothing :
  let found := [Sample.titled_track 7 "G"; Sample.titled_track 8 "H"] in
  let first := _search_tracks Scene.searching Scene.empty_pane
                              (Return found) (Raise OtherError) in
  let second := _search_tracks (fst first) (snd first)
                               (Return found) (Raise OtherError) in
  map item_id (search_list (snd first)) = ["track-7"; "track-8"]
  /\ search_list (snd second) = []
  /\ search_results (snd second) = found.
Proof. repeat split; vm_compute; reflexivity. Qed.

(** X21. Every entry listed by a search can be played: as long as all
    tracks of the current playlist have a rating key, picking the entry
    plays a track with the entry's rating key, and never raises, also
    when the results hold a track without rating key further down. *)
Theorem listed_result_is_playable (app : App) (pane : SearchPane)
        (library_search server_search : Outcome (list Track))
        (results : list Track) (item : ListItem) (k : Z) :
  search_answer (env app) library_search server_search = Return results ->
  Forall (fun t => is_Some (track_ratingKey t)) (playlist_of app) ->
  item ∈ search_list (snd (_search_tracks app pane library_search
                                          server_search)) ->
  item_id item = String.append "track-" (PyInt.str k) ->
  exists t,
    t ∈ playlist_of app ++ results
    /\ track_ratingKey t = Some k
    /\ _play_track_by_key
         (fst (_search_tracks app pane library_search server_search))
         (search_results (snd (_search_tracks app pane library_search
                                              server_search)))
         (PyInt.str k)
       = Return (_play_track
                   (fst (_search_tracks app pane library_search
                                        server_search)) t).
Proof.
  intros Ha Hcur Hin Hid. unfold _search_tracks in *. rewrite Ha in *.
  pose proof (search_items_elem (plex (env app))
                (map item_id (search_list pane)) results item) as He.
  destruct (search_items _ _ results) as [l made]. simpl in *.
  destruct (He Hin) as (pre & t0 & post & k0 & -> & Hpre & Ht0 & Hid0).
  rewrite Hid in Hid0. apply String.app_inj, str_inj in Hid0 as <-.
  (* the first track with key [k] in the playlist followed by the
     keyed prefix of the results *)
  assert (forall l1 : list Track,
             Forall (fun t => is_Some (track_ratingKey t)) l1 ->
             forall t1 l2, track_ratingKey t1 = Some k ->
             exists pre' t post',
               l1 ++ t1 :: l2 = pre' ++ t :: post'
               /\ Forall (other_key k) pre'
               /\ track_ratingKey t = Some k) as Hfirst.
  { induction 1 as [|u l1 [ku Hu] _ IH]; intros t1 l2 Ht1.
    - by exists [], t1, l2.
    - destruct (decide (ku = k)) as [->|Hne].
      + by exists [], u, (l1 ++ t1 :: l2).
      + destruct (IH t1 l2 Ht1) as (pre' & t & post' & Heq & Hpre' & Ht).
        exists (u :: pre'), t, post'. simpl. rewrite Heq.
        repeat split; try done. constructor; [by exists ku | done]. }
  destruct (Hfirst (playlist_of app ++ pre)
                   (proj2 (Forall_app _ _ _) (conj Hcur Hpre)) t0 post Ht0)
    as (pre' & t & post' & Heq & Hpre' & Ht).
  rewrite <- app_assoc in Heq.
  exists t. split; [|split; [done|]].
  - rewrite Heq. apply elem_of_app. right. apply list_elem_of_here.
  - unfold _play_track_by_key.
    change (playlist_of (add_calls app made)) with (playlist_of app).
    by rewrite Heq, find_track_first.
Qed.

Lemma listed_result_is_playable_witness :
  exists t,
    t ∈ playlist_of Scene.searching
        ++ [Sample.titled_track 7 "G"; Scene.keyless_track]
    /\ track_ratingKey t = Some 7
    /\ _play_track_by_key
         (fst (_search_tracks Scene.searching Scene.empty_pane
                 (Return [Sample.titled_track 7 "G"; Scene.keyless_track])
                 (Raise OtherError)))
         (search_results
            (snd (_search_tracks Scene.searching Scene.empty_pane
                    (Return [Sample.titled_track 7 "G"; Scene.keyless_track])
                    (Raise OtherError))))
         (PyInt.str 7)
       = Return (_play_track
                   (fst (_search_tracks Scene.searching Scene.empty_pane
                           (Return [Sample.titled_track 7 "G";
                                    Scene.keyless_track])
                           (Raise OtherError))) t).
Proof.
  apply (listed_result_is_playable Scene.searching Scene.empty_pane
           (Return [Sample.titled_track 7 "G"; Scene.keyless_track])
           (Raise OtherError)
           [Sample.titled_track 7 "G"; Scene.keyless_track]
           {| item_label := "G - Song"; item_id := "track-7" |} 7).
  - reflexivity.
  - vm_compute. constructor.
  - vm_compute. apply list_elem_of_here.
  - reflexivity.
Defined.

(** ** Finding the player *)

Lemma path_join_truthy (a b : string) :
  Py.truthy a = true -> Py.truthy (path_join a b) = true.
Proof.
  intros Ha. unfold path_join.
  destruct (String.prefix "/" b) eqn:Hb.
  { destruct b; [by vm_compute in Hb | done]. }
  destruct a as [|c a]; [done|].
  assert (exists d r, String.rev (String c a) = String d r) as (d & r & ->).
  { rewrite rev_cons. destruct (String.rev a) as [|d r].
    - by exists c, "".
    - by exists d, (String.append r (String c "")). }
  destruct (Ascii.eqb d "/"); reflexivity.
Qed.

Lemma brew_fallback_spec (host : Host) (player_cmd : string) :
  (forall path,
      brew_fallback host player_cmd = Some path ->
      Py.truthy path = true
      /\ system host = "Darwin"
      /\ isfile host path = true /\ access_x host path = true
      /\ exists dir, dir ∈ homebrew_paths
                     /\ path = path_join dir player_cmd)
  /\ (brew_fallback host player_cmd = None <->
      (system host = "Darwin" ->
       forall dir, dir ∈ homebrew_paths ->
                   isfile host (path_join dir player_cmd)
                   && access_x host (path_join dir player_cmd) = false))
  /\ (system host = "Darwin" ->
      isfile host (path_join "/opt/homebrew/bin" player_cmd) = true ->
      access_x host (path_join "/opt/homebrew/bin" player_cmd) = true ->
      brew_fallback host player_cmd
      = Some (path_join "/opt/homebrew/bin" player_cmd)).
Proof.
  unfold brew_fallback, homebrew_paths. cbn [first_executable].
  set (p1 := path_join "/opt/homebrew/bin" player_cmd).
  set (p2 := path_join "/usr/local/bin" player_cmd).
  assert (Py.truthy p1 = true) as Hp1 by (by apply path_join_truthy).
  assert (Py.truthy p2 = true) as Hp2 by (by apply path_join_truthy).
  assert (["/opt/homebrew/bin"; "/usr/local/bin"] !! 0%nat
          = Some "/opt/homebrew/bin") as Hd1 by done.
  assert (["/opt/homebrew/bin"; "/usr/local/bin"] !! 1%nat
          = Some "/usr/local/bin") as Hd2 by done.
  apply list_elem_of_lookup_2 in Hd1, Hd2.
  destruct (String.eqb_spec (system host) "Darwin") as [Hd|Hd].
  2: { split; [done|]. split; [|done]. split; [done|]. by intros _. }
  destruct (isfile host p1 && access_x host p1) eqn:H1.
  { split; [|split].
    - intros path [= <-]. apply andb_true_iff in H1 as [? ?].
      repeat split; try done. by exists "/opt/homebrew/bin".
    - split; [done|]. intros H. specialize (H Hd _ Hd1). fold p1 in H.
      congruence.
    - done. }
  destruct (isfile host p2 && access_x host p2) eqn:H2.
  { split; [|split].
    - intros path [= <-]. apply andb_true_iff in H2 as [? ?].
      repeat split; try done. by exists "/usr/local/bin".
    - split; [done|]. intros H. specialize (H Hd _ Hd2). fold p2 in H.
      congruence.
    - intros _ Hf Hx. by rewrite Hf, Hx in H1. }
  split; [done|]. split.
  - split; [|done]. intros _ _ dir.
    rewrite !elem_of_cons, elem_of_nil. by intros [->|[->|[]]].
  - intros _ Hf Hx. by rewrite Hf, Hx in H1.
Qed.

(** X22. [_find_player] never answers with an empty path.  Its answer is what
    [which] found, or else, on macOS only, the first of the two Homebrew
    directories that holds an executable file of that name; it is
    [None] exactly when [which] finds nothing and, on macOS, neither
    directory has such a file. *)
Theorem find_player_sound (host : Host) (player_cmd : string) :
  (forall path,
      _find_player host player_cmd = Some path ->
      Py.truthy path = true
      /\ (which host player_cmd = Some path
          \/ (Py.truthy_opt (which host player_cmd) = false
              /\ system host = "Darwin"
              /\ isfile host path = true /\ access_x host path = true
              /\ exists dir, dir ∈ homebrew_paths
                             /\ path = path_join dir player_cmd)))
  /\ (_find_player host player_cmd = None <->
      Py.truthy_opt (which host player_cmd) = false
      /\ (system host = "Darwin" ->
          forall dir, dir ∈ homebrew_paths ->
                      isfile host (path_join dir player_cmd)
                      && access_x host (path_join dir player_cmd) = false))
  /\ (Py.truthy_opt (which host player_cmd) = false ->
      system host = "Darwin" ->
      isfile host (path_join "/opt/homebrew/bin" player_cmd) = true ->
      access_x host (path_join "/opt/homebrew/bin" player_cmd) = true ->
      _find_player host player_cmd
      = Some (path_join "/opt/homebrew/bin" player_cmd)).
Proof.
  destruct (brew_fallback_spec host player_cmd) as (Hs & Hn & Hf).
  assert (_find_player host player_cmd
          = match which host player_cmd with
            | Some w => if Py.truthy w then Some w
                        else brew_fallback host player_cmd
            | None => brew_fallback host player_cmd
            end) as ->.
  { unfold _find_player, brew_fallback.
    by destruct (which host player_cmd) as [[|c w]|]. }
  destruct (which host player_cmd) as [w|]; simpl;
    [destruct (Py.truthy w) eqn:Hw|].
  - split; [|split].
    + intros path [= <-]. split; [done | by left].
    + split; [done | by intros [? _]].
    + done.
  - split; [|split].
    + intros path Hp. destruct (Hs path Hp) as (? & ? & ? & ? & ?).
      split; [done|]. right. by repeat split.
    + rewrite Hn. split; [by split | by intros [_ ?]].
    + intros _. apply Hf.
  - split; [|split].
    + intros path Hp. destruct (Hs path Hp) as (? & ? & ? & ? & ?).
      split; [done|]. right. by repeat split.
    + rewrite Hn. split; [by split | by intros [_ ?]].
    + intros _. apply Hf.
Qed.

(** ** Loading from the keyboard *)

(** X23. Space on an idle player with nothing loaded tests the
    highlighted playlist.  When it tests true (it has items), it is
    loaded and played from the top: the tracks installed are the fetched
    ones, shuffled only when more than 50 were fetched, so a fetch of at
    most 50 tracks, and with it every playlist that declares more than
    1000, keeps the server's order.  When it tests false or the test
    raises, nothing is loaded or played: the state is the one before,
    with the call of the test logged. *)
Theorem space_on_highlighted (app : App) (p : Playlist) (r : nat -> nat)
        (tracks : list Track) (made : list Call) :
  current_process (player app) = None ->
  has_tracks app = false ->
  _highlighted_playlist app = Some p ->
  (playlist_bool p = Return true ->
   cache_get (tracks_cache app) (playlist_key p) = None ->
   fetch_tracks (music_library (env app)) p None = (Return tracks, made) ->
   current_index (action_play_pause app r) = 0
   /\ playlist_of (action_play_pause app r) ≡ₚ tracks
   /\ ((length tracks <= 50)%nat ->
       playlist_of (action_play_pause app r) = tracks)
   /\ (count_exceeds_threshold p ->
       playlist_of (action_play_pause app r) = tracks))
  /\ (playlist_bool p <> Return true ->
      action_play_pause app r
      = add_calls app [CallItems (playlist_ratingKey p)]).
Proof.
  intros Hproc Hnone Hhl. split.
  2: { intros Hfalse. unfold action_play_pause.
       rewrite Hproc, Hnone, Hhl.
       by destruct (playlist_bool p) as [e|[|]]. }
  intros Htrue Hmiss Hfetch.
  destruct (load_fetched (test_highlighted app p) p None tracks made
                         Hmiss Hfetch)
    as (_ & Hheap & _ & Hcur & Hidx & _).
  set (s := _load_playlist_tracks (test_highlighted app p) p None) in *.
  assert (playlist_of s = tracks) as Hs.
  { unfold playlist_of. rewrite Hheap, Hcur. apply deref_lookup.
    by rewrite lookup_app_r, Nat.sub_diag. }
  assert (action_play_pause app r
          = if has_tracks s then
              play_at (set_index
                         (if Z.of_nat (length (playlist_of s)) >? 50
                          then shuffle_current s r else s) 0) 0
            else s) as ->.
  { unfold action_play_pause. by rewrite Hproc, Hnone, Hhl, Htrue. }
  assert ((length tracks <= 50)%nat ->
          (if has_tracks s then
             play_at (set_index
                        (if Z.of_nat (length (playlist_of s)) >? 50
                         then shuffle_current s r else s) 0) 0
           else s)
          = if has_tracks s then play_at (set_index s 0) 0 else s) as Hsmall.
  { intros Hle. rewrite Hs.
    by destruct (Z.gtb_spec (Z.of_nat (length tracks)) 50); [lia|]. }
  assert (playlist_of (if has_tracks s then play_at (set_index s 0) 0 else s)
          = tracks) as Hkeep.
  { destruct (has_tracks s); [|done]. by rewrite play_at_playlist. }
  split; [|split; [|split]].
  - destruct (has_tracks s); [|done]. by rewrite play_at_index.
  - destruct (has_tracks s); [|by rewrite Hs].
    rewrite play_at_playlist.
    destruct (Z.of_nat (length (playlist_of s)) >? 50); [|by rewrite <- Hs].
    change (playlist_of (set_index (shuffle_current s r) 0))
      with (playlist_of (shuffle_current s r)).
    unfold playlist_of at 1. simpl. unfold deref.
    rewrite list_lookup_insert_eq;
      [simpl; rewrite Hs; apply shuffle_Permutation|].
    rewrite Hheap, Hcur, length_app. simpl. lia.
  - intros Hle. by rewrite Hsmall.
  - intros Hlarge. apply is_large_playlist_iff in Hlarge.
    rewrite Hsmall; [done|].
    unfold fetch_tracks in Hfetch.
    apply fetch_length in Hfetch.
    + unfold chosen_limit in Hfetch. rewrite Hlarge in Hfetch.
      unfold LARGE_PLAYLIST_LIMIT in Hfetch. lia.
    + destruct (chosen_limit_default (playlist_count p)) as [-> | ->]; lia.
Qed.

Lemma space_on_highlighted_witness :
  playlist_of
    (action_play_pause
       (on_list_view_highlighted (init Sample.no_server) Scene.long_mix)
       (fun n => n))
  = replicate 50 (Sample.titled_track 2 "B").
Proof.
  pose proof (space_on_highlighted
                (on_list_view_highlighted (init Sample.no_server)
                                          Scene.long_mix)
                Scene.long_mix (fun n => n)
                (replicate 50 (Sample.titled_track 2 "B"))
                [CallItems (Some 8)]) as H.
  destruct H as [H _];
    [vm_compute; reflexivity | vm_compute; reflexivity
     | vm_compute; reflexivity |].
  destruct H as (_ & _ & _ & H);
    [vm_compute; reflexivity | vm_compute; reflexivity
     | vm_compute; reflexivity |].
  apply H. exists 5000. split; [reflexivity | lia].
Defined.

(** X24. A load that fails changes nothing but the message shown: list
    objects, cache, current playlist, cursor and player stay as they
    were, nothing is cached for the playlist, and the next load asks the
    server again. *)
Theorem failed_load_changes_nothing (app : App) (p : Playlist)
        (limit : option Z) (e : Exn) (made : list Call) :
  cache_get (tracks_cache app) (playlist_key p) = None ->
  fetch_tracks (music_library (env app)) p limit = (Raise e, made) ->
  same_store app (_load_playlist_tracks app p limit)
  /\ current_index (_load_playlist_tracks app p limit) = current_index app
  /\ player (_load_playlist_tracks app p limit) = player app
  /\ main_content (_load_playlist_tracks app p limit) = LoadError
  /\ calls (_load_playlist_tracks app p limit) = calls app ++ made
  /\ made <> []
  /\ calls (_load_playlist_tracks (_load_playlist_tracks app p limit) p limit)
     = calls app ++ made ++ made.
Proof.
  intros Hmiss Hfetch.
  pose proof (fetch_calls_nonempty (music_library (env app)) p limit) as Hne.
  rewrite Hfetch in Hne.
  assert (_load_playlist_tracks app p limit
          = {| env := env app; heap := heap app;
               tracks_cache := tracks_cache app;
               current_playlist := current_playlist app;
               current_index := current_index app; player := player app;
               _highlighted_playlist := _highlighted_playlist app;
               main_content := LoadError; calls := calls app ++ made |}) as ->.
  { unfold _load_playlist_tracks. by rewrite Hmiss, Hfetch. }
  repeat split; try done.
  unfold _load_playlist_tracks. simpl. rewrite Hmiss, Hfetch. simpl.
  by rewrite <- app_assoc.
Qed.

Lemma failed_load_changes_nothing_witness :
  main_content
    (_load_playlist_tracks Sample.small_loaded Scene.broken_playlist None)
  = LoadError
  /\ playlist_of
       (_load_playlist_tracks Sample.small_loaded Scene.broken_playlist None)
     = playlist_of Sample.small_loaded.
Proof.
  pose proof (failed_load_changes_nothing Sample.small_loaded
                Scene.broken_playlist None OtherError [CallItems (Some 4)])
    as H.
  destruct H as ((Hh & _ & Hc) & _ & _ & Hm & _);
    [vm_compute; reflexivity | vm_compute; reflexivity |].
  split; [exact Hm|]. unfold playlist_of. by rewrite Hh, Hc.
Defined.
